(** * Uniform buffer layout: [src/graphics/uniform-buffer-format.js]

    A shallow embedding of the two classes of the file, [UniformFormat] and
    [UniformBufferFormat], and of the module-level table
    [uniformTypeToByteSize], followed by the properties of the layout they
    compute.

    Conventions of the embedding.
    - JavaScript objects live in a store ([heap]) and are handled through
      their location: the constructor of [UniformBufferFormat] writes the
      [offset] of the very objects it was handed, and puts the same objects
      in its [map].
    - Byte sizes are the integer literals of the table and sums of them, so
      they are integers ([Z]).  The operator [/] of JavaScript does not
      truncate; the offset is therefore a rational number, kept in
      canonical form ([Qc]).  A JavaScript array has fewer than [2^32]
      elements and no entry of the table exceeds 64, so every number met
      here stays below [2^53] and the arithmetic of doubles is exact on it
      (see [byteSize_below_2_53]).
    - The thirteen [UNIFORMTYPE_*] constants come from [./constants.js];
      the layout code only names them, so they are parameters here
      ([Constants]). *)

From Stdlib Require Import ZArith QArith Qcanon Lia.
From stdpp Require Import base numbers option list strings gmap.

Local Open Scope Z_scope.

(** ** The imported constants *)

(** The constants imported from [./constants.js], in the order of the
    import statement. *)
Class Constants := {
  UNIFORMTYPE_BOOL : Z;
  UNIFORMTYPE_INT : Z;
  UNIFORMTYPE_FLOAT : Z;
  UNIFORMTYPE_VEC2 : Z;
  UNIFORMTYPE_VEC3 : Z;
  UNIFORMTYPE_VEC4 : Z;
  UNIFORMTYPE_IVEC2 : Z;
  UNIFORMTYPE_IVEC3 : Z;
  UNIFORMTYPE_IVEC4 : Z;
  UNIFORMTYPE_BVEC2 : Z;
  UNIFORMTYPE_BVEC3 : Z;
  UNIFORMTYPE_BVEC4 : Z;
  UNIFORMTYPE_MAT4 : Z
}.

(** One assignment of the constants: the thirteen handled tags numbered in
    the order of the import, leaving out 12 and 13, which the comment under
    the table gives to the unhandled [UNIFORMTYPE_MAT2] and
    [UNIFORMTYPE_MAT3]. It is used to instantiate the theorems. *)
Definition sample_constants : Constants := {|
  UNIFORMTYPE_BOOL := 0;
  UNIFORMTYPE_INT := 1;
  UNIFORMTYPE_FLOAT := 2;
  UNIFORMTYPE_VEC2 := 3;
  UNIFORMTYPE_VEC3 := 4;
  UNIFORMTYPE_VEC4 := 5;
  UNIFORMTYPE_IVEC2 := 6;
  UNIFORMTYPE_IVEC3 := 7;
  UNIFORMTYPE_IVEC4 := 8;
  UNIFORMTYPE_BVEC2 := 9;
  UNIFORMTYPE_BVEC3 := 10;
  UNIFORMTYPE_BVEC4 := 11;
  UNIFORMTYPE_MAT4 := 14
|}.

(** ** Objects, store and outcomes *)

(** A location of the store. *)
Abbreviation loc := nat (only parsing).

(** An instance of the class [UniformFormat]. The field [offset] is
    declared without initialiser, so it is [undefined] ([None]) until a
    [UniformBufferFormat] writes it. *)
Record UniformFormat := {
  uf_name : string;
  uf_type : Z;
  uf_byteSize : Z;
  uf_offset : option Qc
}.

(** The store of [UniformFormat] objects: [new] appends, a field write
    replaces the object at its location. *)
Abbreviation heap := (list UniformFormat) (only parsing).

(** An instance of the class [UniformBufferFormat]: the array it was given,
    the total size and the [Map] from names to objects. *)
Record UniformBufferFormat := {
  ubf_uniforms : list loc;
  ubf_byteSize : Z;
  ubf_map : gmap string loc
}.

(** How a constructor call can end without a value. [Dangling] is a
    location outside the store; JavaScript cannot produce one, it is there
    to keep the functions total. *)
Inductive failure := AssertFailed | Dangling.

Inductive result (A : Type) :=
| Ok (a : A)
| Abort (e : failure).
Arguments Ok {A} a.
Arguments Abort {A} e.

(** Sequencing: the first abort ends the computation. *)
#[global] Instance result_bind : MBind result := λ A B k r,
  match r with
  | Ok a => k a
  | Abort e => Abort e
  end.

(** Modelled from the spec: [Debug.assert] of [../core/debug.js] is not
    part of the sources at hand. Following the specification (section 4.1,
    a construction-time assertion that fails fatally), it aborts the caller
    when its first argument is falsy. The argument here is the outcome of
    a table lookup: [undefined] ([None]) and the number 0 are its falsy
    values. On success the checked number is handed back. The message
    argument is not modelled. *)
Definition Debug_assert (assertion : option Z) : result Z :=
  match assertion with
  | Some n => if decide (n = 0) then Abort AssertFailed else Ok n
  | None => Abort AssertFailed
  end.

(** The number [a / 4] of JavaScript, for an integer [a]. *)
Definition div4 (a : Z) : Qc := (Qc_of_Z a / Qc_of_Z 4)%Qc.

Section Model.
Context `{K : Constants}.

(** ** The type-size table *)

(** The assignments [uniformTypeToByteSize[tag] = size], in the order of
    the source. *)
Definition assignments : list (Z * Z) :=
  [ (UNIFORMTYPE_FLOAT, 4);
    (UNIFORMTYPE_VEC2, 8);
    (UNIFORMTYPE_VEC3, 12);
    (UNIFORMTYPE_VEC4, 16);
    (UNIFORMTYPE_INT, 4);
    (UNIFORMTYPE_IVEC2, 8);
    (UNIFORMTYPE_IVEC3, 12);
    (UNIFORMTYPE_IVEC4, 16);
    (UNIFORMTYPE_BOOL, 4);
    (UNIFORMTYPE_BVEC2, 8);
    (UNIFORMTYPE_BVEC3, 12);
    (UNIFORMTYPE_BVEC4, 16);
    (UNIFORMTYPE_MAT4, 64) ].

(** [arr[k] = v] on a sparse array. *)
Definition assign (arr : gmap Z Z) (kv : Z * Z) : gmap Z Z :=
  <[kv.1 := kv.2]> arr.

(** The array [uniformTypeToByteSize]: empty at first, then filled by the
    assignments one after the other. *)
Definition uniformTypeToByteSize : gmap Z Z := foldl assign ∅ assignments.

(** The tags the table was given a size for. *)
Definition registered_tags : list Z := assignments.*1.

Definition registered (tag : Z) : Prop := tag ∈ registered_tags.

#[global] Instance registered_dec (tag : Z) : Decision (registered tag).
Proof. unfold registered. apply _. Defined.

(** ** [UniformFormat] *)

(** [new UniformFormat(name, type)]: the size is read from the table and
    asserted; the new object is appended to the store. *)
Definition UniformFormat_new (name : string) (type : Z) (h : heap)
  : result (loc * heap) :=
  byteSize ← Debug_assert (uniformTypeToByteSize !! type);
  Ok (length h,
      h ++ [ {| uf_name := name; uf_type := type;
                uf_byteSize := byteSize; uf_offset := None |} ]).

(** ** [UniformBufferFormat] *)

(** [uniform.offset = q] *)
Definition set_offset (q : Qc) (uniform : UniformFormat) : UniformFormat :=
  {| uf_name := uf_name uniform; uf_type := uf_type uniform;
     uf_byteSize := uf_byteSize uniform; uf_offset := Some q |}.

(** The [for] loop of the constructor, from the current element on:
    [byteSize] is the local variable, [map] is [this.map]. *)
Fixpoint layout_loop (uniforms : list loc) (byteSize : Z)
    (map : gmap string loc) (h : heap)
  : result (Z * gmap string loc * heap) :=
  match uniforms with
  | [] => Ok (byteSize, map, h)
  | l :: rest =>
      match h !! l with
      | None => Abort Dangling
      | Some uniform =>
          let h' := <[l := set_offset (div4 byteSize) uniform]> h in
          let byteSize' := byteSize + uf_byteSize uniform in
          let map' := <[uf_name uniform := l]> map in
          layout_loop rest byteSize' map' h'
      end
  end.

(** [new UniformBufferFormat(uniforms)]: the field initialisers give an
    empty map, the loop runs from a size of 0, and its final value is
    stored in [this.byteSize]. *)
Definition UniformBufferFormat_new (uniforms : list loc) (h : heap)
  : result (UniformBufferFormat * heap) :=
  '(byteSize, map, h') ← layout_loop uniforms 0 ∅ h;
  Ok ({| ubf_uniforms := uniforms; ubf_byteSize := byteSize;
         ubf_map := map |}, h').

(** ** The caller's protocol *)

(** One [new UniformFormat(name, type)] per declaration, from left to
    right: the array literal a caller passes to the format. *)
Fixpoint declare (decls : list (string * Z)) (h : heap)
  : result (list loc * heap) :=
  match decls with
  | [] => Ok ([], h)
  | (name, type) :: rest =>
      '(l, h1) ← UniformFormat_new name type h;
      '(ls, h2) ← declare rest h1;
      Ok (l :: ls, h2)
  end.

(** [new UniformBufferFormat([new UniformFormat(..), ...])] *)
Definition compile (decls : list (string * Z)) (h : heap)
  : result (UniformBufferFormat * heap) :=
  '(ls, h1) ← declare decls h;
  UniformBufferFormat_new ls h1.

(** ** Reading a format *)

(** [fmt.uniforms[i]], dereferenced. *)
Definition field (fmt : UniformBufferFormat) (h : heap) (i : nat)
  : option UniformFormat :=
  l ← ubf_uniforms fmt !! i; h !! l.

(** All the fields of the format, in order. *)
Definition fields (fmt : UniformBufferFormat) (h : heap)
  : list UniformFormat :=
  omap (λ l : loc, h !! l) (ubf_uniforms fmt).

(** [fmt.map.get(name)], dereferenced; [None] is the [undefined] that
    [Map.prototype.get] answers for an absent key. *)
Definition lookup_name (fmt : UniformBufferFormat) (h : heap)
    (name : string) : option UniformFormat :=
  l ← ubf_map fmt !! name; h !! l.

(** The sum of the byte sizes of a list of fields. *)
Definition total_size (us : list UniformFormat) : Z :=
  foldr (λ u acc, uf_byteSize u + acc) 0 us.

(** ** The layout, as a function of the declarations

    What the constructors are shown to compute below, written without
    the store. *)

(** The object [new UniformFormat(name, type)] creates for a registered
    type. *)
Definition fresh_descriptor (d : string * Z) : UniformFormat :=
  {| uf_name := d.1; uf_type := d.2;
     uf_byteSize := default 0 (uniformTypeToByteSize !! d.2);
     uf_offset := None |}.

(** The objects after the loop, when it starts at [cursor] bytes. *)
Fixpoint place (cursor : Z) (us : list UniformFormat) : list UniformFormat :=
  match us with
  | [] => []
  | u :: rest =>
      set_offset (div4 cursor) u :: place (cursor + uf_byteSize u) rest
  end.

(** The map after the loop, for objects stored from location [l] on. *)
Fixpoint name_map (l : loc) (us : list UniformFormat)
    (map : gmap string loc) : gmap string loc :=
  match us with
  | [] => map
  | u :: rest => name_map (S l) rest (<[uf_name u := l]> map)
  end.

(** The fields of the format built from [decls]. *)
Definition layout (decls : list (string * Z)) : list UniformFormat :=
  place 0 (fresh_descriptor <$> decls).

(** ** What the loop reads and what it leaves alone *)

(** The fields of an object the loop never writes. *)
Definition constant_part (u : UniformFormat) : string * Z * Z :=
  (uf_name u, uf_type u, uf_byteSize u).

(** [uniforms[i].name], read through the location. *)
Definition name_at (h : heap) (l : loc) : string :=
  from_option uf_name ""%string (h !! l).

(** [this.map] after the loop over [uniforms], from the map [map]. *)
Definition names_map (h : heap) (map : gmap string loc)
    (uniforms : list loc) : gmap string loc :=
  foldl (λ m l, <[name_at h l := l]> m) map uniforms.

End Model.

#[global] Arguments uniformTypeToByteSize {K} : simpl never.

(** * Properties *)

(** Splits a hypothesis of distinctness of a literal list into the
    inequalities between its elements. *)
Ltac split_NoDup :=
  repeat match goal with
    | H : NoDup (_ :: _) |- _ => apply NoDup_cons in H as [? ?]
    | H : _ ∉ _ :: _ |- _ => apply not_elem_of_cons in H as [? ?]
    end.

(** Decides a closed decidable proposition by evaluation. *)
Ltac by_evaluation := apply (bool_decide_unpack _); vm_compute; exact I.

(** ** Exact division by 4 *)

Lemma Qc_of_Z_4_neq_0 : Qc_of_Z 4 ≠ 0%Qc.
Proof. rewrite <- Z2Qc_inj_0. by intros ?%Z2Qc_inj. Qed.

(** Multiplying the quotient by 4 gives the dividend back, whatever it is:
    nothing is rounded. *)
Lemma div4_mul_4 (a : Z) : (div4 a * Qc_of_Z 4)%Qc = Qc_of_Z a.
Proof.
  unfold div4, Qcdiv.
  rewrite <- Qcmult_assoc, (Qcmult_comm (/ _)), Qcmult_inv_r, Qcmult_1_r;
    [done | apply Qc_of_Z_4_neq_0].
Qed.

(** On a multiple of 4 the quotient is the integer quotient. *)
Lemma div4_whole (a : Z) : a mod 4 = 0 → div4 a = Qc_of_Z (a / 4).
Proof.
  intros Hmod. unfold div4.
  rewrite (Z.div_mod a 4) at 1 by done.
  rewrite Hmod, Z.add_0_r, Z.mul_comm, Z2Qc_inj_mul.
  unfold Qcdiv.
  rewrite <- Qcmult_assoc, Qcmult_inv_r, Qcmult_1_r;
    [done | apply Qc_of_Z_4_neq_0].
Qed.

Section Table.
Context `{K : Constants}.

(** ** Assignments to a sparse array *)

(** A key that is never assigned keeps what it had. *)
Lemma assign_all_other (kvs : list (Z * Z)) (arr : gmap Z Z) (k : Z) :
  k ∉ kvs.*1 → foldl assign arr kvs !! k = arr !! k.
Proof.
  revert arr. induction kvs as [|[k' v'] kvs IH]; intros arr Hk; [done|].
  cbn in Hk. apply not_elem_of_cons in Hk as [Hne Hk]. cbn.
  rewrite IH by done. unfold assign. cbn. by rewrite lookup_insert_ne.
Qed.

(** A value read after the assignments was assigned, or was there
    before. *)
Lemma assign_all_Some (kvs : list (Z * Z)) (arr : gmap Z Z) (k v : Z) :
  foldl assign arr kvs !! k = Some v → (k, v) ∈ kvs ∨ arr !! k = Some v.
Proof.
  revert arr. induction kvs as [|[k' v'] kvs IH]; intros arr Hk; [by right|].
  cbn in Hk. apply IH in Hk as [Hin | Hk].
  - left. by apply list_elem_of_further.
  - unfold assign in Hk. cbn in Hk.
    destruct (decide (k' = k)) as [->|Hne].
    + rewrite lookup_insert_eq in Hk. left. injection Hk as ->.
      apply list_elem_of_here.
    + rewrite lookup_insert_ne in Hk by done. by right.
Qed.

(** An assigned key reads as some value. *)
Lemma assign_all_is_Some (kvs : list (Z * Z)) (arr : gmap Z Z) (k : Z) :
  k ∈ kvs.*1 → is_Some (foldl assign arr kvs !! k).
Proof.
  revert arr. induction kvs as [|[k' v'] kvs IH]; intros arr Hk;
    [by apply elem_of_nil in Hk|].
  cbn. destruct (decide (k ∈ kvs.*1)) as [Hin|Hout]; [by apply IH|].
  rewrite assign_all_other by done.
  cbn in Hk. apply elem_of_cons in Hk as [->|Hk]; [|done].
  unfold assign. cbn. rewrite lookup_insert_eq. by eexists.
Qed.

(** ** The type-size table *)

Lemma table_Some_assigned (tag size : Z) :
  uniformTypeToByteSize !! tag = Some size → (tag, size) ∈ assignments.
Proof.
  intros Htag. apply assign_all_Some in Htag as [Hin | Hempty]; [done|].
  by rewrite lookup_empty in Hempty.
Qed.

Lemma table_registered (tag : Z) :
  registered tag ↔ is_Some (uniformTypeToByteSize !! tag).
Proof.
  split.
  - apply assign_all_is_Some.
  - intros [size Htag]. apply table_Some_assigned in Htag.
    unfold registered, registered_tags.
    apply list_elem_of_fmap. by exists (tag, size).
Qed.

Lemma table_unregistered (tag : Z) :
  ¬ registered tag → uniformTypeToByteSize !! tag = None.
Proof.
  intros Hun. apply eq_None_not_Some. by rewrite <- table_registered.
Qed.

(** Every size in the table is one of the five literals of the source. *)
Lemma table_sizes (tag size : Z) :
  uniformTypeToByteSize !! tag = Some size →
  size = 4 ∨ size = 8 ∨ size = 12 ∨ size = 16 ∨ size = 64.
Proof.
  intros Htag%table_Some_assigned. unfold assignments in Htag.
  repeat (apply elem_of_cons in Htag as [[= _ ->] | Htag]; [tauto|]).
  by apply elem_of_nil in Htag.
Qed.

Lemma table_size_bounds (tag size : Z) :
  uniformTypeToByteSize !! tag = Some size →
  0 < size ≤ 64 ∧ size mod 4 = 0.
Proof.
  intros Htag%table_sizes.
  destruct Htag as [->|[->|[->|[->| ->]]]]; (split; [lia | done]).
Qed.

(** With distinct constants no assignment overwrites another one, and
    each tag reads as the size it was assigned. *)
Lemma table_distinct :
  NoDup registered_tags →
  uniformTypeToByteSize !! UNIFORMTYPE_BOOL = Some 4
  ∧ uniformTypeToByteSize !! UNIFORMTYPE_INT = Some 4
  ∧ uniformTypeToByteSize !! UNIFORMTYPE_FLOAT = Some 4
  ∧ uniformTypeToByteSize !! UNIFORMTYPE_VEC2 = Some 8
  ∧ uniformTypeToByteSize !! UNIFORMTYPE_IVEC2 = Some 8
  ∧ uniformTypeToByteSize !! UNIFORMTYPE_BVEC2 = Some 8
  ∧ uniformTypeToByteSize !! UNIFORMTYPE_VEC3 = Some 12
  ∧ uniformTypeToByteSize !! UNIFORMTYPE_IVEC3 = Some 12
  ∧ uniformTypeToByteSize !! UNIFORMTYPE_BVEC3 = Some 12
  ∧ uniformTypeToByteSize !! UNIFORMTYPE_VEC4 = Some 16
  ∧ uniformTypeToByteSize !! UNIFORMTYPE_IVEC4 = Some 16
  ∧ uniformTypeToByteSize !! UNIFORMTYPE_BVEC4 = Some 16
  ∧ uniformTypeToByteSize !! UNIFORMTYPE_MAT4 = Some 64.
Proof.
  unfold registered_tags, assignments. cbn [fmap list_fmap fst].
  intros Hdistinct. split_NoDup.
  unfold uniformTypeToByteSize, assignments, assign.
  cbn [foldl fst snd].
  repeat split;
    repeat (rewrite lookup_insert_ne by congruence);
    apply lookup_insert_eq.
Qed.

End Table.

Section Constructors.
Context `{K : Constants}.

(** ** [new UniformFormat] *)

Lemma fresh_descriptor_size (d : string * Z) :
  registered d.2 →
  uniformTypeToByteSize !! d.2 = Some (uf_byteSize (fresh_descriptor d)).
Proof.
  intros [size Htag]%table_registered. cbn. by rewrite Htag.
Qed.

Lemma UniformFormat_new_registered (name : string) (type : Z) (h : heap) :
  registered type →
  UniformFormat_new name type h
  = Ok (length h, h ++ [fresh_descriptor (name, type)]).
Proof.
  intros [size Htag]%table_registered.
  unfold UniformFormat_new, fresh_descriptor. cbn. rewrite Htag. cbn.
  apply table_size_bounds in Htag as [Hpos _].
  destruct (decide (size = 0)) as [->|_]; [lia | done].
Qed.

Lemma UniformFormat_new_unregistered (name : string) (type : Z) (h : heap) :
  ¬ registered type → UniformFormat_new name type h = Abort AssertFailed.
Proof.
  intros Htag%table_unregistered. unfold UniformFormat_new.
  by rewrite Htag.
Qed.

(** ** The declarations *)

Lemma declare_registered (decls : list (string * Z)) (h : heap) :
  Forall (λ d, registered d.2) decls →
  declare decls h
  = Ok (seq (length h) (length decls), h ++ (fresh_descriptor <$> decls)).
Proof.
  intros Hreg. revert h.
  induction Hreg as [|[name type] decls Hd _ IH]; intros h; cbn.
  - by rewrite app_nil_r.
  - rewrite UniformFormat_new_registered by done. cbn.
    rewrite IH. cbn. rewrite length_app, Nat.add_1_r.
    by rewrite <- app_assoc.
Qed.

(** The first declaration of an unregistered type stops everything. *)
Lemma declare_unregistered (decls : list (string * Z)) (h : heap) :
  Exists (λ d, ¬ registered d.2) decls →
  declare decls h = Abort AssertFailed.
Proof.
  revert h. induction decls as [|[name type] decls IH]; intros h Hex.
  - by apply Exists_nil in Hex.
  - cbn. destruct (decide (registered type)) as [Hreg|Hun].
    + rewrite UniformFormat_new_registered by done. cbn.
      apply Exists_cons in Hex as [Hhd|Htl]; [done|].
      by rewrite IH.
    + by rewrite UniformFormat_new_unregistered.
Qed.

(** ** The loop *)

(** On objects stored one after the other, the loop writes the offsets
    of [place] and fills the map as [name_map]; the rest of the store is
    left as it was. *)
Lemma layout_loop_seq (us pre post : list UniformFormat) (cursor : Z)
    (map : gmap string nat) :
  layout_loop (seq (length pre) (length us)) cursor map (pre ++ us ++ post)
  = Ok (cursor + total_size us, name_map (length pre) us map,
        pre ++ place cursor us ++ post).
Proof.
  revert pre cursor map.
  induction us as [|u us IH]; intros pre cursor map; cbn.
  - by rewrite Z.add_0_r.
  - rewrite list_lookup_middle by done.
    rewrite insert_app_r_alt by lia. rewrite Nat.sub_diag. cbn.
    specialize (IH (pre ++ [set_offset (div4 cursor) u])).
    rewrite length_app, Nat.add_1_r, <- !app_assoc in IH. cbn in IH.
    rewrite IH, <- app_assoc. unfold total_size. by rewrite Z.add_assoc.
Qed.

(** ** The whole construction *)

Lemma compile_registered (decls : list (string * Z)) (h : heap) :
  Forall (λ d, registered d.2) decls →
  compile decls h
  = Ok ({| ubf_uniforms := seq (length h) (length decls);
           ubf_byteSize := total_size (fresh_descriptor <$> decls);
           ubf_map := name_map (length h) (fresh_descriptor <$> decls) ∅ |},
        h ++ place 0 (fresh_descriptor <$> decls)).
Proof.
  intros Hreg. unfold compile. rewrite declare_registered by done. cbn.
  unfold UniformBufferFormat_new.
  rewrite <- (length_fmap fresh_descriptor decls).
  rewrite <- (app_nil_r (fresh_descriptor <$> decls)) at 2.
  rewrite layout_loop_seq. cbn. by rewrite app_nil_r.
Qed.

Lemma compile_unregistered (decls : list (string * Z)) (h : heap) :
  Exists (λ d, ¬ registered d.2) decls →
  compile decls h = Abort AssertFailed.
Proof.
  intros Hex. unfold compile. by rewrite declare_unregistered.
Qed.

End Constructors.

Section Layout.
Context `{K : Constants}.

(** ** Sizes *)

Lemma total_size_mod_4 (us : list UniformFormat) :
  Forall (λ u, uf_byteSize u mod 4 = 0) us → total_size us mod 4 = 0.
Proof.
  induction 1 as [|u us Hu _ IH]; cbn; [done|].
  unfold total_size in IH.
  rewrite Z.add_mod, Hu, IH by done. done.
Qed.

Lemma total_size_bounds (us : list UniformFormat) :
  Forall (λ u, 0 < uf_byteSize u ≤ 64) us →
  0 ≤ total_size us ≤ 64 * Z.of_nat (length us).
Proof.
  induction 1 as [|u us Hu _ IH]; cbn; [lia|].
  unfold total_size in IH. lia.
Qed.

(** ** The placed objects *)

Lemma length_place (cursor : Z) (us : list UniformFormat) :
  length (place cursor us) = length us.
Proof.
  revert cursor. induction us as [|u us IH]; intros cursor; cbn; [done|].
  by rewrite IH.
Qed.

(** Placing changes no size. *)
Lemma place_sizes (cursor : Z) (us : list UniformFormat) :
  uf_byteSize <$> place cursor us = uf_byteSize <$> us.
Proof.
  revert cursor. induction us as [|u us IH]; intros cursor; cbn; [done|].
  by rewrite IH.
Qed.

Lemma total_size_sizes (us vs : list UniformFormat) :
  uf_byteSize <$> us = uf_byteSize <$> vs → total_size us = total_size vs.
Proof.
  revert vs. induction us as [|u us IH]; intros [|v vs] Heq; try done.
  cbn in Heq. injection Heq as Hhd Htl. cbn. rewrite Hhd.
  apply IH in Htl. unfold total_size in Htl. by rewrite Htl.
Qed.

Lemma total_size_take_place (cursor : Z) (us : list UniformFormat) (i : nat) :
  total_size (take i (place cursor us)) = total_size (take i us).
Proof.
  apply total_size_sizes. by rewrite !fmap_take, place_sizes.
Qed.

(** The object at index [i] gets as offset the quarter of the bytes
    before it. *)
Lemma place_lookup (us : list UniformFormat) (cursor : Z) (i : nat)
    (u : UniformFormat) :
  us !! i = Some u →
  place cursor us !! i
  = Some (set_offset (div4 (cursor + total_size (take i us))) u).
Proof.
  revert cursor i. induction us as [|v us IH]; intros cursor i Hi; [done|].
  destruct i as [|i]; cbn in *.
  - injection Hi as ->. by rewrite Z.add_0_r.
  - rewrite (IH _ _ Hi). unfold total_size. by rewrite Z.add_assoc.
Qed.

(** ** The map of names *)

Lemma name_map_absent (us : list UniformFormat) (l : nat)
    (map : gmap string nat) (name : string) :
  name ∉ uf_name <$> us → name_map l us map !! name = map !! name.
Proof.
  revert l map. induction us as [|u us IH]; intros l map Hname; [done|].
  cbn in Hname. apply not_elem_of_cons in Hname as [Hne Hname]. cbn.
  rewrite IH by done. by rewrite lookup_insert_ne.
Qed.

(** A name is mapped to the last object that carries it. *)
Lemma name_map_last (us : list UniformFormat) (l : nat)
    (map : gmap string nat) (i : nat) (u : UniformFormat) :
  us !! i = Some u →
  (∀ j v, (i < j)%nat → us !! j = Some v → uf_name v ≠ uf_name u) →
  name_map l us map !! uf_name u = Some (l + i)%nat.
Proof.
  revert l map i.
  induction us as [|w us IH]; intros l map i Hi Hlast; [done|].
  destruct i as [|i]; cbn in *.
  - injection Hi as ->. rewrite name_map_absent.
    + by rewrite lookup_insert_eq, Nat.add_0_r.
    + intros (v & Hv & [j Hj]%list_elem_of_lookup)%list_elem_of_fmap.
      apply (Hlast (S j) v); [lia | done | done].
  - rewrite (IH (S l) _ i); [f_equal; lia | done |].
    intros j v Hij Hj. apply (Hlast (S j) v); [lia | done].
Qed.

(** Every name that occurs has a last occurrence. *)
Lemma last_occurrence {A} (f : A → string) (xs : list A) (name : string) :
  name ∈ f <$> xs →
  ∃ i x, xs !! i = Some x ∧ f x = name
         ∧ ∀ j y, (i < j)%nat → xs !! j = Some y → f y ≠ name.
Proof.
  induction xs as [|w xs IH]; intros Hname; [by apply elem_of_nil in Hname|].
  destruct (decide (name ∈ f <$> xs)) as [Hin|Hout].
  - destruct (IH Hin) as (i & x & Hi & Hx & Hlast).
    exists (S i), x. repeat split; [done..|].
    intros [|j] y Hij Hj; [lia|]. apply (Hlast j y); [lia | done].
  - cbn in Hname. apply elem_of_cons in Hname as [->|Hin]; [|done].
    exists 0%nat, w. repeat split; [done..|].
    intros [|j] y Hij Hj; [lia|]. cbn in Hj.
    intros Heq. apply Hout, list_elem_of_fmap. exists y. split; [done|].
    apply list_elem_of_lookup. by exists j.
Qed.

(** ** Reading the store back *)

Lemma read_seq (xs pre : list UniformFormat) :
  omap (λ l : nat, (pre ++ xs) !! l) (seq (length pre) (length xs)) = xs.
Proof.
  revert pre. induction xs as [|x xs IH]; intros pre; [done|].
  cbn. rewrite list_lookup_middle by done. f_equal.
  specialize (IH (pre ++ [x])).
  by rewrite length_app, Nat.add_1_r, <- app_assoc in IH.
Qed.

Lemma lookup_seq_app (xs pre : list UniformFormat) (i : nat) :
  (l ← seq (length pre) (length xs) !! i; (pre ++ xs) !! l) = xs !! i.
Proof.
  destruct (decide (i < length xs)%nat) as [Hlt|Hge].
  - rewrite lookup_seq_lt by done. cbn.
    by rewrite lookup_app_r, Nat.add_comm, Nat.add_sub by lia.
  - rewrite lookup_seq_ge by lia. cbn. symmetry.
    apply lookup_ge_None. lia.
Qed.

End Layout.

Section Compiled.
Context `{K : Constants}.

(** ** What a compiled format reads as *)

Lemma length_layout (decls : list (string * Z)) :
  length (layout decls) = length decls.
Proof. unfold layout. by rewrite length_place, length_fmap. Qed.

(** The outcome of [compile], with the fields it reads as. *)
Lemma compile_layout (decls : list (string * Z)) (h : list UniformFormat) :
  Forall (λ d, registered d.2) decls →
  ∃ fmt h',
    compile decls h = Ok (fmt, h')
    ∧ h' = h ++ layout decls
    ∧ ubf_uniforms fmt = seq (length h) (length decls)
    ∧ ubf_byteSize fmt = total_size (layout decls)
    ∧ ubf_map fmt = name_map (length h) (fresh_descriptor <$> decls) ∅
    ∧ fields fmt h' = layout decls
    ∧ ∀ i, field fmt h' i = layout decls !! i.
Proof.
  intros Hreg. eexists _, _. split; [by apply compile_registered|].
  unfold fields, field. cbn. fold (layout decls).
  rewrite <- (length_layout decls).
  repeat split.
  - unfold layout. apply total_size_sizes. by rewrite place_sizes.
  - apply read_seq.
  - intros i. apply lookup_seq_app.
Qed.

Lemma layout_lookup (decls : list (string * Z)) (i : nat) (d : string * Z) :
  decls !! i = Some d →
  layout decls !! i
  = Some (set_offset (div4 (total_size (take i (layout decls))))
            (fresh_descriptor d)).
Proof.
  intros Hd. unfold layout.
  rewrite total_size_take_place.
  erewrite place_lookup; [by rewrite Z.add_0_l|].
  by rewrite list_lookup_fmap, Hd.
Qed.

Lemma layout_lookup_inv (decls : list (string * Z)) (i : nat)
    (u : UniformFormat) :
  layout decls !! i = Some u →
  ∃ d, decls !! i = Some d
       ∧ u = set_offset (div4 (total_size (take i (layout decls))))
               (fresh_descriptor d).
Proof.
  intros Hu. destruct (decls !! i) as [d|] eqn:Hd.
  - exists d. split; [done|].
    rewrite (layout_lookup _ _ _ Hd) in Hu. by injection Hu.
  - apply lookup_ge_None in Hd. rewrite <- length_layout in Hd.
    apply lookup_ge_None in Hd. congruence.
Qed.

(** The sizes of the fields are those the table gives to the declared
    types. *)
Lemma layout_sizes (decls : list (string * Z)) :
  Forall (λ d, registered d.2) decls →
  Forall2 (λ d u, uniformTypeToByteSize !! d.2 = Some (uf_byteSize u))
    decls (layout decls).
Proof.
  intros Hreg. unfold layout. generalize 0.
  induction Hreg as [|d decls Hd _ IH]; intros cursor; cbn;
    constructor; [|by apply IH].
  by apply fresh_descriptor_size.
Qed.

(** The sizes depend on the declared types alone. *)
Lemma layout_sizes_types (decls decls' : list (string * Z)) :
  decls'.*2 = decls.*2 →
  uf_byteSize <$> layout decls' = uf_byteSize <$> layout decls.
Proof.
  intros Htypes. unfold layout. rewrite !place_sizes.
  revert decls' Htypes.
  induction decls as [|d decls IH]; intros [|d' decls'] Htypes; try done.
  cbn in Htypes. injection Htypes as Hhd Htl. cbn.
  by rewrite Hhd, (IH decls').
Qed.

Lemma layout_size_props (decls : list (string * Z)) :
  Forall (λ d, registered d.2) decls →
  Forall (λ u, 0 < uf_byteSize u ≤ 64 ∧ uf_byteSize u mod 4 = 0)
    (layout decls).
Proof.
  intros Hreg%layout_sizes.
  induction Hreg as [|d u decls us Hdu _ IH]; constructor; [|done].
  by eapply table_size_bounds.
Qed.

(** ** Looking a name up *)

Lemma names_fresh (decls : list (string * Z)) :
  uf_name <$> (fresh_descriptor <$> decls) = decls.*1.
Proof. by rewrite <- list_fmap_compose. Qed.

(** The map sends a name to the object of its last declaration, which is
    also what the array holds at that index. *)
Lemma compile_lookup_last (decls : list (string * Z))
    (h h' : list UniformFormat) (fmt : UniformBufferFormat)
    (j : nat) (name : string) (type : Z) :
  Forall (λ d, registered d.2) decls →
  compile decls h = Ok (fmt, h') →
  decls !! j = Some (name, type) →
  (∀ k d, (j < k)%nat → decls !! k = Some d → d.1 ≠ name) →
  ubf_map fmt !! name = Some (length h + j)%nat
  ∧ ubf_uniforms fmt !! j = Some (length h + j)%nat
  ∧ h' !! (length h + j)%nat = layout decls !! j
  ∧ lookup_name fmt h' name = field fmt h' j.
Proof.
  intros Hreg Hrun Hj Hlast.
  destruct (compile_layout decls h Hreg)
    as (fmt0 & h0 & Hrun0 & Hh' & Hunif & _ & Hmap & _ & Hfield).
  rewrite Hrun0 in Hrun. injection Hrun as <- <-.
  assert (ubf_map fmt0 !! name = Some (length h + j)%nat) as Hname.
  { rewrite Hmap.
    apply (name_map_last _ _ _ j (fresh_descriptor (name, type))).
    - by rewrite list_lookup_fmap, Hj.
    - intros k v Hjk Hk. rewrite list_lookup_fmap in Hk.
      apply fmap_Some in Hk as (d & Hd & ->). cbn. by apply (Hlast k). }
  assert (h0 !! (length h + j)%nat = layout decls !! j) as Hread.
  { rewrite Hh', lookup_app_r by lia. f_equal. lia. }
  repeat split; [done | | done |].
  - rewrite Hunif. apply lookup_seq_lt. by eapply lookup_lt_Some.
  - unfold lookup_name. rewrite Hname. cbn. by rewrite Hread, Hfield.
Qed.

(** A name that is not declared is not in the map. *)
Lemma compile_lookup_absent (decls : list (string * Z))
    (h h' : list UniformFormat) (fmt : UniformBufferFormat)
    (name : string) :
  Forall (λ d, registered d.2) decls →
  compile decls h = Ok (fmt, h') →
  name ∉ decls.*1 →
  ubf_map fmt !! name = None.
Proof.
  intros Hreg Hrun Hname.
  destruct (compile_layout decls h Hreg)
    as (fmt0 & h0 & Hrun0 & _ & _ & _ & Hmap & _).
  rewrite Hrun0 in Hrun. injection Hrun as <- <-.
  rewrite Hmap, name_map_absent; [done|]. by rewrite names_fresh.
Qed.

End Compiled.

(** * The layout of a format *)

Section Packing.
Context `{K : Constants}.

(** C1. For declarations of registered types, the construction succeeds,
    the i-th field is the i-th declaration, and its offset times 4 is the
    sum of the byte sizes of the fields before it; for the first field
    that sum is empty, so its offset is 0. Fields follow each other with
    no gap and no padding. *)
Theorem offsets_pack_sequentially (decls : list (string * Z))
    (h : list UniformFormat) :
  Forall (λ d, registered d.2) decls →
  ∃ fmt h',
    compile decls h = Ok (fmt, h')
    ∧ length (fields fmt h') = length decls
    ∧ ∀ i name type, decls !! i = Some (name, type) →
        ∃ u q,
          field fmt h' i = Some u
          ∧ uf_name u = name ∧ uf_type u = type
          ∧ uf_offset u = Some q
          ∧ (q * Qc_of_Z 4)%Qc
            = Qc_of_Z (total_size (take i (fields fmt h'))).
Proof.
  intros Hreg.
  destruct (compile_layout decls h Hreg)
    as (fmt & h' & Hrun & _ & _ & _ & _ & Hfields & Hfield).
  exists fmt, h'. split; [done|].
  rewrite Hfields. split; [apply length_layout|].
  intros i name type Hd.
  eexists _, _. rewrite Hfield, (layout_lookup _ _ _ Hd).
  repeat split. cbn. apply div4_mul_4.
Qed.

(** C2. For declarations of registered types, the [byteSize] of the
    format is the sum of the byte sizes of its fields, each of which is
    the size the table gives to the declared type; declarations with the
    same types in the same order, whatever their names, give the same
    [byteSize]. *)
Theorem byteSize_is_sum_of_sizes (decls : list (string * Z))
    (h : list UniformFormat) :
  Forall (λ d, registered d.2) decls →
  ∃ fmt h',
    compile decls h = Ok (fmt, h')
    ∧ ubf_byteSize fmt = total_size (fields fmt h')
    ∧ Forall2 (λ d u, uniformTypeToByteSize !! d.2 = Some (uf_byteSize u))
        decls (fields fmt h')
    ∧ ∀ decls' h0, decls'.*2 = decls.*2 →
        ∃ fmt' h0',
          compile decls' h0 = Ok (fmt', h0')
          ∧ ubf_byteSize fmt' = ubf_byteSize fmt.
Proof.
  intros Hreg.
  destruct (compile_layout decls h Hreg)
    as (fmt & h' & Hrun & _ & _ & Hsize & _ & Hfields & _).
  exists fmt, h'. split; [done|].
  rewrite Hfields. repeat split; [done | by apply layout_sizes |].
  intros decls' h0 Htypes.
  assert (Forall (λ d, registered d.2) decls') as Hreg'.
  { apply Forall_fmap with (f := snd) (P := registered).
    rewrite Htypes. by apply Forall_fmap. }
  destruct (compile_layout decls' h0 Hreg')
    as (fmt' & h0' & Hrun' & _ & _ & Hsize' & _).
  exists fmt', h0'. split; [done|].
  rewrite Hsize, Hsize'.
  by apply total_size_sizes, layout_sizes_types.
Qed.

End Packing.

(** * The type-size table and the assertion *)

Section Sizes.
Context `{K : Constants}.

(** C3. For a type tag the table has no size for, [new UniformFormat]
    aborts on its assertion whatever the name, no object is returned and
    no size is made up; a list of declarations that contains such a tag
    aborts in the same way before a format exists. *)
Theorem unregistered_type_aborts (name : string) (tag : Z)
    (h : list UniformFormat) :
  ¬ registered tag →
  uniformTypeToByteSize !! tag = None
  ∧ UniformFormat_new name tag h = Abort AssertFailed
  ∧ ∀ before after h0,
      compile (before ++ (name, tag) :: after) h0 = Abort AssertFailed.
Proof.
  intros Hun. split; [by apply table_unregistered|].
  split; [by apply UniformFormat_new_unregistered|].
  intros before after h0. apply compile_unregistered.
  apply Exists_app. right. by apply Exists_cons_hd.
Qed.

(** C4. When the thirteen constants are distinct, the table gives 4 to
    the scalar tags, 8 to the vectors of 2, 12 to the vectors of 3, 16 to
    the vectors of 4 and 64 to the 4x4 matrix. *)
Theorem table_has_canonical_sizes :
  NoDup registered_tags →
  uniformTypeToByteSize !! UNIFORMTYPE_BOOL = Some 4
  ∧ uniformTypeToByteSize !! UNIFORMTYPE_INT = Some 4
  ∧ uniformTypeToByteSize !! UNIFORMTYPE_FLOAT = Some 4
  ∧ uniformTypeToByteSize !! UNIFORMTYPE_VEC2 = Some 8
  ∧ uniformTypeToByteSize !! UNIFORMTYPE_IVEC2 = Some 8
  ∧ uniformTypeToByteSize !! UNIFORMTYPE_BVEC2 = Some 8
  ∧ uniformTypeToByteSize !! UNIFORMTYPE_VEC3 = Some 12
  ∧ uniformTypeToByteSize !! UNIFORMTYPE_IVEC3 = Some 12
  ∧ uniformTypeToByteSize !! UNIFORMTYPE_BVEC3 = Some 12
  ∧ uniformTypeToByteSize !! UNIFORMTYPE_VEC4 = Some 16
  ∧ uniformTypeToByteSize !! UNIFORMTYPE_IVEC4 = Some 16
  ∧ uniformTypeToByteSize !! UNIFORMTYPE_BVEC4 = Some 16
  ∧ uniformTypeToByteSize !! UNIFORMTYPE_MAT4 = Some 64.
Proof.
  intros Hdistinct. by apply table_distinct.
Qed.

End Sizes.

(** * Names *)

Section Names.
Context `{K : Constants}.

(** C5. In a compiled format, a name that is declared is mapped to one of
    the objects of the array, the one of the last declaration of that
    name; read back, the object carries the name, the declared type, the
    size the table gives to the type and the offset the layout assigned
    at its index. A name that is not declared is not in the map and the
    lookup answers [undefined], not a descriptor. *)
Theorem lookup_finds_declared_names_only (decls : list (string * Z))
    (h : list UniformFormat) :
  Forall (λ d, registered d.2) decls →
  ∃ fmt h',
    compile decls h = Ok (fmt, h')
    ∧ (∀ name, name ∈ decls.*1 →
         ∃ i l u,
           ubf_map fmt !! name = Some l
           ∧ ubf_uniforms fmt !! i = Some l
           ∧ h' !! l = Some u
           ∧ lookup_name fmt h' name = Some u
           ∧ field fmt h' i = Some u
           ∧ uf_name u = name
           ∧ decls !! i = Some (name, uf_type u)
           ∧ uniformTypeToByteSize !! uf_type u = Some (uf_byteSize u)
           ∧ uf_offset u
             = Some (div4 (total_size (take i (fields fmt h')))))
    ∧ (∀ name, name ∉ decls.*1 →
         ubf_map fmt !! name = None ∧ lookup_name fmt h' name = None).
Proof.
  intros Hreg.
  destruct (compile_layout decls h Hreg)
    as (fmt & h' & Hrun & _ & _ & _ & _ & Hfields & Hfield).
  exists fmt, h'. split; [done|]. split.
  - intros name Hname.
    apply last_occurrence in Hname as (j & [name' type] & Hj & Hfst & Hlast).
    cbn in Hfst. subst name'.
    destruct (compile_lookup_last _ _ _ _ _ _ _ Hreg Hrun Hj Hlast)
      as (Hmap & Hunif & Hread & Hlookup).
    pose proof (layout_lookup _ _ _ Hj) as Hlay.
    eexists j, _, _. rewrite Hmap, Hunif, Hread, Hlookup, Hfield, Hfields.
    rewrite Hlay. repeat split; cbn.
    + done.
    + rewrite Forall_lookup in Hreg.
      apply (fresh_descriptor_size (name, type)), (Hreg j _ Hj).
  - intros name Hname.
    pose proof (compile_lookup_absent _ _ _ _ _ Hreg Hrun Hname) as Hmap.
    split; [done|]. unfold lookup_name. by rewrite Hmap.
Qed.

End Names.

Section Duplicates.
Context `{K : Constants}.

(** C6. With a name declared more than once, every declaration still has
    its own object in the array, with the offset that follows the fields
    before it, and the total is the sum of all the sizes; but the map
    holds, for a name, the object of its last declaration only. For
    [("x", float), ("x", vec2)] and distinct constants, the total is 12
    and the lookup of "x" answers the vec2 field, at offset 1. *)
Theorem duplicate_names_last_wins (decls : list (string * Z))
    (h : list UniformFormat) :
  NoDup registered_tags →
  Forall (λ d, registered d.2) decls →
  (∃ fmt h',
     compile decls h = Ok (fmt, h')
     ∧ NoDup (ubf_uniforms fmt)
     ∧ ubf_byteSize fmt = total_size (fields fmt h')
     ∧ (∀ i name type, decls !! i = Some (name, type) →
          ∃ u, field fmt h' i = Some u
               ∧ uf_name u = name
               ∧ uniformTypeToByteSize !! type = Some (uf_byteSize u)
               ∧ uf_offset u
                 = Some (div4 (total_size (take i (fields fmt h')))))
     ∧ (∀ j name type, decls !! j = Some (name, type) →
          (∀ k d, (j < k)%nat → decls !! k = Some d → d.1 ≠ name) →
          ubf_map fmt !! name = ubf_uniforms fmt !! j
          ∧ lookup_name fmt h' name = field fmt h' j
          ∧ ∀ i, i ≠ j →
              ubf_uniforms fmt !! i ≠ ubf_map fmt !! name))
  ∧ (∃ fmt h',
       compile [("x"%string, UNIFORMTYPE_FLOAT);
                ("x"%string, UNIFORMTYPE_VEC2)] h = Ok (fmt, h')
       ∧ ubf_byteSize fmt = 12
       ∧ fields fmt h'
         = [ {| uf_name := "x"; uf_type := UNIFORMTYPE_FLOAT;
                uf_byteSize := 4; uf_offset := Some (Qc_of_Z 0) |};
             {| uf_name := "x"; uf_type := UNIFORMTYPE_VEC2;
                uf_byteSize := 8; uf_offset := Some (Qc_of_Z 1) |} ]
       ∧ lookup_name fmt h' "x"
         = Some {| uf_name := "x"; uf_type := UNIFORMTYPE_VEC2;
                   uf_byteSize := 8; uf_offset := Some (Qc_of_Z 1) |}).
Proof.
  intros Hdistinct Hreg. split.
  - destruct (compile_layout decls h Hreg)
      as (fmt & h' & Hrun & _ & Hunif & Hsize & _ & Hfields & Hfield).
    exists fmt, h'. split; [done|].
    split; [rewrite Hunif; apply NoDup_seq|].
    rewrite Hfields. split; [done|]. split.
    + intros i name type Hi. eexists.
      rewrite Hfield, (layout_lookup _ _ _ Hi). repeat split. cbn.
      rewrite Forall_lookup in Hreg.
      apply (fresh_descriptor_size (name, type)), (Hreg i _ Hi).
    + intros j name type Hj Hlast.
      destruct (compile_lookup_last _ _ _ _ _ _ _ Hreg Hrun Hj Hlast)
        as (Hmap & Hj' & _ & Hlookup).
      rewrite Hmap, Hj'. repeat split; [done|].
      intros i Hij Hi. rewrite Hunif in Hi.
      apply lookup_seq in Hi as [Hi _]. lia.
  - destruct (table_distinct Hdistinct)
      as (_ & _ & Hfloat & Hvec2 & _).
    set (xs := [("x"%string, UNIFORMTYPE_FLOAT);
                ("x"%string, UNIFORMTYPE_VEC2)]).
    assert (Forall (λ d, registered d.2) xs) as Hxs.
    { repeat constructor; apply table_registered; by eexists. }
    destruct (compile_layout xs h Hxs)
      as (fmt & h' & Hrun & _ & _ & Hsize & _ & Hfields & Hfield).
    assert (layout xs
            = [ {| uf_name := "x"; uf_type := UNIFORMTYPE_FLOAT;
                   uf_byteSize := 4; uf_offset := Some (Qc_of_Z 0) |};
                {| uf_name := "x"; uf_type := UNIFORMTYPE_VEC2;
                   uf_byteSize := 8; uf_offset := Some (Qc_of_Z 1) |} ])
      as Hlayout.
    { unfold layout, xs, fresh_descriptor, set_offset. cbn.
      rewrite Hfloat, Hvec2. cbn. by rewrite !div4_whole. }
    exists fmt, h'. split; [done|].
    rewrite Hsize, Hfields, Hlayout. repeat split.
    assert (xs !! 1%nat = Some ("x"%string, UNIFORMTYPE_VEC2)) as H1
      by done.
    destruct (compile_lookup_last _ _ _ _ _ _ _ Hxs Hrun H1)
      as (_ & _ & _ & ->).
    + intros [|[|k]] d Hk Hd; [lia | lia | done].
    + by rewrite Hfield, Hlayout.
Qed.

End Duplicates.

(** * Determinism and scenarios *)

Section Scenarios.
Context `{K : Constants}.

(** C7. Two constructions from equal declarations of registered types,
    in whatever state the store is at each of them (the second may run
    after the first), both succeed and give fields equal in name, type,
    byte size and offset, and the same total [byteSize]. *)
Theorem compile_is_deterministic (decls : list (string * Z))
    (h1 h2 : list UniformFormat) :
  Forall (λ d, registered d.2) decls →
  ∃ fmt1 h1' fmt2 h2',
    compile decls h1 = Ok (fmt1, h1')
    ∧ compile decls h2 = Ok (fmt2, h2')
    ∧ fields fmt1 h1' = fields fmt2 h2'
    ∧ ubf_byteSize fmt1 = ubf_byteSize fmt2.
Proof.
  intros Hreg.
  destruct (compile_layout decls h1 Hreg)
    as (fmt1 & h1' & Hrun1 & _ & _ & Hsize1 & _ & Hfields1 & _).
  destruct (compile_layout decls h2 Hreg)
    as (fmt2 & h2' & Hrun2 & _ & _ & Hsize2 & _ & Hfields2 & _).
  exists fmt1, h1', fmt2, h2'. repeat split; [done | done | |].
  - by rewrite Hfields1, Hfields2.
  - by rewrite Hsize1, Hsize2.
Qed.

(** C8. With distinct constants, [("a", vec3), ("b", float), ("c", vec4)]
    compiles to the offsets 0, 3 and 4, that is to the bytes 0, 12 and
    16, and to a [byteSize] of 32: [b] comes right after the 12 bytes of
    [a]. *)
Theorem scenario_vec3_float_vec4 (h : list UniformFormat) :
  NoDup registered_tags →
  ∃ fmt h',
    compile [("a"%string, UNIFORMTYPE_VEC3);
             ("b"%string, UNIFORMTYPE_FLOAT);
             ("c"%string, UNIFORMTYPE_VEC4)] h = Ok (fmt, h')
    ∧ fields fmt h'
      = [ {| uf_name := "a"; uf_type := UNIFORMTYPE_VEC3;
             uf_byteSize := 12; uf_offset := Some (Qc_of_Z 0) |};
          {| uf_name := "b"; uf_type := UNIFORMTYPE_FLOAT;
             uf_byteSize := 4; uf_offset := Some (Qc_of_Z 3) |};
          {| uf_name := "c"; uf_type := UNIFORMTYPE_VEC4;
             uf_byteSize := 16; uf_offset := Some (Qc_of_Z 4) |} ]
    ∧ (Qc_of_Z 3 * Qc_of_Z 4)%Qc = Qc_of_Z 12
    ∧ (Qc_of_Z 4 * Qc_of_Z 4)%Qc = Qc_of_Z 16
    ∧ ubf_byteSize fmt = 32.
Proof.
  intros Hdistinct.
  destruct (table_distinct Hdistinct)
    as (_ & _ & Hfloat & _ & _ & _ & Hvec3 & _ & _ & Hvec4 & _).
  set (abc := [("a"%string, UNIFORMTYPE_VEC3);
               ("b"%string, UNIFORMTYPE_FLOAT);
               ("c"%string, UNIFORMTYPE_VEC4)]).
  assert (Forall (λ d, registered d.2) abc) as Habc.
  { repeat constructor; apply table_registered; by eexists. }
  destruct (compile_layout abc h Habc)
    as (fmt & h' & Hrun & _ & _ & Hsize & _ & Hfields & _).
  exists fmt, h'. split; [done|].
  rewrite Hsize, Hfields.
  unfold layout, abc, fresh_descriptor, set_offset. cbn.
  rewrite Hfloat, Hvec3, Hvec4. cbn. rewrite !div4_whole by done.
  rewrite <- !Z2Qc_inj_mul. done.
Qed.

(** C9. The empty list compiles, in any store and for any constants, to
    a format of [byteSize] 0 with an empty map; the lookup of any name
    answers [undefined]. *)
Theorem scenario_empty (h : list UniformFormat) :
  ∃ fmt,
    compile [] h = Ok (fmt, h)
    ∧ ubf_uniforms fmt = []
    ∧ ubf_byteSize fmt = 0
    ∧ ubf_map fmt = ∅
    ∧ ∀ name, ubf_map fmt !! name = None ∧ lookup_name fmt h name = None.
Proof.
  eexists. split; [reflexivity|]. cbn. repeat split.
Qed.

(** C10. Every size in the table is 4, 8, 12, 16 or 64, a multiple of 4.
    For declarations of registered types, the variable [byteSize] of the
    loop is a multiple of 4 after any number of iterations; it is the
    sum of the sizes of the fields placed so far, and the offset written
    next is the integer [byteSize / 4], which times 4 gives the byte
    position back. *)
Theorem cursor_is_multiple_of_4 (decls : list (string * Z))
    (h : list UniformFormat) :
  Forall (λ d, registered d.2) decls →
  (∀ tag size, uniformTypeToByteSize !! tag = Some size →
     (size = 4 ∨ size = 8 ∨ size = 12 ∨ size = 16 ∨ size = 64)
     ∧ size mod 4 = 0)
  ∧ ∃ ls h1 fmt h',
      declare decls h = Ok (ls, h1)
      ∧ UniformBufferFormat_new ls h1 = Ok (fmt, h')
      ∧ compile decls h = Ok (fmt, h')
      ∧ ∀ i, ∃ cursor map hi,
          layout_loop (take i ls) 0 ∅ h1 = Ok (cursor, map, hi)
          ∧ cursor = total_size (take i (fields fmt h'))
          ∧ cursor mod 4 = 0
          ∧ ∀ u, field fmt h' i = Some u →
              uf_offset u = Some (Qc_of_Z (cursor / 4))
              ∧ 4 * (cursor / 4) = cursor
              ∧ (Qc_of_Z (cursor / 4) * Qc_of_Z 4)%Qc = Qc_of_Z cursor.
Proof.
  intros Hreg. split.
  { intros tag size Htag. split; [by eapply table_sizes|].
    by eapply table_size_bounds. }
  destruct (compile_layout decls h Hreg)
    as (fmt & h' & Hrun & _ & _ & _ & _ & Hfields & Hfield).
  eexists _, _, fmt, h'.
  split; [by apply declare_registered|].
  assert (compile decls h = Ok (fmt, h')) as Hrun' by done.
  unfold compile in Hrun'. rewrite declare_registered in Hrun' by done.
  split; [done|]. split; [done|]. clear Hrun'.
  intros i. set (us := fresh_descriptor <$> decls).
  assert (total_size (take i us) mod 4 = 0) as Hmod.
  { apply total_size_mod_4.
    apply Forall_take. unfold us. apply Forall_fmap.
    eapply Forall_impl; [exact Hreg|]. intros d Hd. cbn in *.
    apply fresh_descriptor_size, table_size_bounds in Hd. tauto. }
  eexists _, _, _. split.
  { rewrite <- (length_fmap fresh_descriptor decls). fold us.
    rewrite take_seq, <- length_take.
    rewrite <- (take_drop i us) at 2.
    apply layout_loop_seq. }
  rewrite Z.add_0_l, Hfields. unfold layout at 1. fold us.
  rewrite total_size_take_place.
  split; [done|]. split; [done|].
  intros u Hu. rewrite Hfield in Hu.
  apply layout_lookup_inv in Hu as (d & _ & ->). cbn.
  unfold layout. fold us. rewrite total_size_take_place.
  rewrite div4_whole by done. split; [done|].
  split.
  - rewrite <- Z_div_exact_full_2; [done | lia | done].
  - rewrite <- div4_whole by done. apply div4_mul_4.
Qed.

(** ** Range of the numbers *)

(** An array of fewer than [2^32] fields has a [byteSize] below [2^53]:
    the integers the loop meets are all represented exactly by doubles. *)
Lemma byteSize_below_2_53 (decls : list (string * Z))
    (h h' : list UniformFormat) (fmt : UniformBufferFormat) :
  Forall (λ d, registered d.2) decls →
  Z.of_nat (length decls) < 2 ^ 32 →
  compile decls h = Ok (fmt, h') →
  0 ≤ ubf_byteSize fmt < 2 ^ 53.
Proof.
  intros Hreg Hlen Hrun.
  destruct (compile_layout decls h Hreg)
    as (fmt0 & h0 & Hrun0 & _ & _ & Hsize & _).
  rewrite Hrun0 in Hrun. injection Hrun as <- <-.
  pose proof (total_size_bounds (layout decls)) as Hbound.
  rewrite length_layout in Hbound. rewrite Hsize.
  enough (0 ≤ total_size (layout decls) ≤ 64 * Z.of_nat (length decls))
    by lia.
  apply Hbound.
  eapply Forall_impl; [by apply layout_size_props|].
  intros u Hu. cbn in Hu. tauto.
Qed.

End Scenarios.

(** * Sharing *)

(** The properties above are about one object per declaration. An array
    that holds the same object twice is laid out as two fields, but the
    object has one [offset] only, the one written last: here the single
    4-byte object ends at offset 1 in a format of 8 bytes. *)
Example shared_object_keeps_last_offset :
  UniformBufferFormat_new [0%nat; 0%nat]
    [ {| uf_name := "a"; uf_type := 2; uf_byteSize := 4;
         uf_offset := None |} ]
  = Ok ({| ubf_uniforms := [0%nat; 0%nat]; ubf_byteSize := 8;
           ubf_map := {[ "a"%string := 0%nat ]} |},
        [ {| uf_name := "a"; uf_type := 2; uf_byteSize := 4;
             uf_offset := Some (Qc_of_Z 1) |} ]).
Proof.
  unfold UniformBufferFormat_new. cbn.
  rewrite (div4_whole (0 + 4)) by done. by rewrite insert_insert_eq.
Qed.

(** * Instances *)

Lemma offsets_pack_sequentially_witness :
  ∃ fmt h',
    compile (K := sample_constants) [("a"%string, 4); ("b"%string, 8)] []
    = Ok (fmt, h')
    ∧ length (fields fmt h') = 2%nat
    ∧ ∀ i name type,
        [("a"%string, 4); ("b"%string, 8)] !! i = Some (name, type) →
        ∃ u q,
          field fmt h' i = Some u
          ∧ uf_name u = name ∧ uf_type u = type
          ∧ uf_offset u = Some q
          ∧ (q * Qc_of_Z 4)%Qc
            = Qc_of_Z (total_size (take i (fields fmt h'))).
Proof.
  apply (offsets_pack_sequentially (K := sample_constants)).
  by_evaluation.
Defined.

Lemma byteSize_is_sum_of_sizes_witness :
  ∃ fmt h',
    compile (K := sample_constants) [("a"%string, 4); ("a"%string, 14)] []
    = Ok (fmt, h')
    ∧ ubf_byteSize fmt = total_size (fields fmt h')
    ∧ Forall2
        (λ d u, uniformTypeToByteSize (K := sample_constants) !! d.2
                = Some (uf_byteSize u))
        [("a"%string, 4); ("a"%string, 14)] (fields fmt h')
    ∧ ∀ decls' h0, decls'.*2 = [4; 14] →
        ∃ fmt' h0',
          compile (K := sample_constants) decls' h0 = Ok (fmt', h0')
          ∧ ubf_byteSize fmt' = ubf_byteSize fmt.
Proof.
  apply (byteSize_is_sum_of_sizes (K := sample_constants)).
  by_evaluation.
Defined.

Lemma unregistered_type_aborts_witness :
  ¬ registered (K := sample_constants) 12
  ∧ uniformTypeToByteSize (K := sample_constants) !! 12 = None
  ∧ UniformFormat_new (K := sample_constants) "m"%string 12 []
    = Abort AssertFailed
  ∧ ∀ before after h0,
      compile (K := sample_constants)
        (before ++ ("m"%string, 12) :: after) h0
      = Abort AssertFailed.
Proof.
  assert (¬ registered (K := sample_constants) 12) as Hun by by_evaluation.
  split; [exact Hun|].
  exact (unregistered_type_aborts (K := sample_constants) "m" 12 [] Hun).
Defined.

Lemma table_has_canonical_sizes_witness :
  uniformTypeToByteSize (K := sample_constants) !! 0 = Some 4
  ∧ uniformTypeToByteSize (K := sample_constants) !! 1 = Some 4
  ∧ uniformTypeToByteSize (K := sample_constants) !! 2 = Some 4
  ∧ uniformTypeToByteSize (K := sample_constants) !! 3 = Some 8
  ∧ uniformTypeToByteSize (K := sample_constants) !! 6 = Some 8
  ∧ uniformTypeToByteSize (K := sample_constants) !! 9 = Some 8
  ∧ uniformTypeToByteSize (K := sample_constants) !! 4 = Some 12
  ∧ uniformTypeToByteSize (K := sample_constants) !! 7 = Some 12
  ∧ uniformTypeToByteSize (K := sample_constants) !! 10 = Some 12
  ∧ uniformTypeToByteSize (K := sample_constants) !! 5 = Some 16
  ∧ uniformTypeToByteSize (K := sample_constants) !! 8 = Some 16
  ∧ uniformTypeToByteSize (K := sample_constants) !! 11 = Some 16
  ∧ uniformTypeToByteSize (K := sample_constants) !! 14 = Some 64.
Proof.
  apply (table_has_canonical_sizes (K := sample_constants)).
  by_evaluation.
Defined.

Lemma lookup_finds_declared_names_only_witness :
  ∃ fmt h',
    compile (K := sample_constants) [("a"%string, 4); ("b"%string, 8)] []
    = Ok (fmt, h')
    ∧ (∀ name, name ∈ [("a"%string, 4); ("b"%string, 8)].*1 →
         ∃ i l u,
           ubf_map fmt !! name = Some l
           ∧ ubf_uniforms fmt !! i = Some l
           ∧ h' !! l = Some u
           ∧ lookup_name fmt h' name = Some u
           ∧ field fmt h' i = Some u
           ∧ uf_name u = name
           ∧ [("a"%string, 4); ("b"%string, 8)] !! i = Some (name, uf_type u)
           ∧ uniformTypeToByteSize (K := sample_constants) !! uf_type u
             = Some (uf_byteSize u)
           ∧ uf_offset u
             = Some (div4 (total_size (take i (fields fmt h')))))
    ∧ (∀ name, name ∉ [("a"%string, 4); ("b"%string, 8)].*1 →
         ubf_map fmt !! name = None ∧ lookup_name fmt h' name = None).
Proof.
  apply (lookup_finds_declared_names_only (K := sample_constants)).
  by_evaluation.
Defined.

Lemma duplicate_names_last_wins_witness :
  NoDup (registered_tags (K := sample_constants))
  ∧ ∃ fmt h',
      compile (K := sample_constants) [("x"%string, 2); ("x"%string, 3)] []
      = Ok (fmt, h')
      ∧ ubf_byteSize fmt = 12
      ∧ fields fmt h'
        = [ {| uf_name := "x"; uf_type := 2;
               uf_byteSize := 4; uf_offset := Some (Qc_of_Z 0) |};
            {| uf_name := "x"; uf_type := 3;
               uf_byteSize := 8; uf_offset := Some (Qc_of_Z 1) |} ]
      ∧ lookup_name fmt h' "x"
        = Some {| uf_name := "x"; uf_type := 3;
                  uf_byteSize := 8; uf_offset := Some (Qc_of_Z 1) |}.
Proof.
  assert (NoDup (registered_tags (K := sample_constants))) as Hdistinct
    by by_evaluation.
  assert (Forall (λ d, registered (K := sample_constants) d.2)
            [("x"%string, 2); ("y"%string, 5); ("x"%string, 3)]) as Hreg
    by by_evaluation.
  split; [exact Hdistinct|].
  exact (proj2 (duplicate_names_last_wins (K := sample_constants)
                  [("x"%string, 2); ("y"%string, 5); ("x"%string, 3)] []
                  Hdistinct Hreg)).
Defined.

Lemma compile_is_deterministic_witness :
  ∃ fmt1 h1' fmt2 h2',
    compile (K := sample_constants) [("a"%string, 4); ("b"%string, 2)] []
    = Ok (fmt1, h1')
    ∧ compile (K := sample_constants) [("a"%string, 4); ("b"%string, 2)]
        [ {| uf_name := "z"; uf_type := 14; uf_byteSize := 64;
             uf_offset := None |} ]
      = Ok (fmt2, h2')
    ∧ fields fmt1 h1' = fields fmt2 h2'
    ∧ ubf_byteSize fmt1 = ubf_byteSize fmt2.
Proof.
  apply (compile_is_deterministic (K := sample_constants)).
  by_evaluation.
Defined.

Lemma scenario_vec3_float_vec4_witness :
  ∃ fmt h',
    compile (K := sample_constants)
      [("a"%string, 4); ("b"%string, 2); ("c"%string, 5)] [] = Ok (fmt, h')
    ∧ fields fmt h'
      = [ {| uf_name := "a"; uf_type := 4;
             uf_byteSize := 12; uf_offset := Some (Qc_of_Z 0) |};
          {| uf_name := "b"; uf_type := 2;
             uf_byteSize := 4; uf_offset := Some (Qc_of_Z 3) |};
          {| uf_name := "c"; uf_type := 5;
             uf_byteSize := 16; uf_offset := Some (Qc_of_Z 4) |} ]
    ∧ (Qc_of_Z 3 * Qc_of_Z 4)%Qc = Qc_of_Z 12
    ∧ (Qc_of_Z 4 * Qc_of_Z 4)%Qc = Qc_of_Z 16
    ∧ ubf_byteSize fmt = 32.
Proof.
  apply (scenario_vec3_float_vec4 (K := sample_constants) []).
  by_evaluation.
Defined.

Lemma cursor_is_multiple_of_4_witness :
  Forall (λ d, registered (K := sample_constants) d.2)
    [("a"%string, 4); ("b"%string, 2)]
  ∧ ∃ ls h1 fmt h',
      declare (K := sample_constants) [("a"%string, 4); ("b"%string, 2)] []
      = Ok (ls, h1)
      ∧ UniformBufferFormat_new ls h1 = Ok (fmt, h')
      ∧ compile (K := sample_constants) [("a"%string, 4); ("b"%string, 2)] []
        = Ok (fmt, h')
      ∧ ∀ i, ∃ cursor map hi,
          layout_loop (take i ls) 0 ∅ h1 = Ok (cursor, map, hi)
          ∧ cursor = total_size (take i (fields fmt h'))
          ∧ cursor mod 4 = 0
          ∧ ∀ u, field fmt h' i = Some u →
              uf_offset u = Some (Qc_of_Z (cursor / 4))
              ∧ 4 * (cursor / 4) = cursor
              ∧ (Qc_of_Z (cursor / 4) * Qc_of_Z 4)%Qc = Qc_of_Z cursor.
Proof.
  assert (Forall (λ d, registered (K := sample_constants) d.2)
            [("a"%string, 4); ("b"%string, 2)]) as Hreg by by_evaluation.
  split; [exact Hreg|].
  exact (proj2 (cursor_is_multiple_of_4 (K := sample_constants)
                  [("a"%string, 4); ("b"%string, 2)] [] Hreg)).
Defined.

(** * The constructor of [UniformBufferFormat] on any array

    From here on the array may hold any objects of the store, in any
    state, and the same object more than once. *)

Section Arrays.

(** ** Stores that differ in offsets only *)

Lemma constant_part_lookup (h h' : list UniformFormat) (l : nat) :
  constant_part <$> h' = constant_part <$> h →
  constant_part <$> h' !! l = constant_part <$> h !! l.
Proof. intros Heq. by rewrite <- !list_lookup_fmap, Heq. Qed.

Lemma constant_part_insert (h : list UniformFormat) (l : nat)
    (u : UniformFormat) (q : Qc) :
  h !! l = Some u →
  constant_part <$> <[l := set_offset q u]> h = constant_part <$> h.
Proof.
  intros Hu. rewrite list_fmap_insert. apply list_insert_id.
  by rewrite list_lookup_fmap, Hu.
Qed.

Lemma constant_part_valid (h h' : list UniformFormat) (l : nat) :
  constant_part <$> h' = constant_part <$> h →
  is_Some (h !! l) → is_Some (h' !! l).
Proof.
  intros Heq%(constant_part_lookup _ _ l) [u Hu]. rewrite Hu in Heq.
  destruct (h' !! l); [by eexists | done].
Qed.

Lemma constant_part_name (h h' : list UniformFormat) (l : nat) :
  constant_part <$> h' = constant_part <$> h → name_at h' l = name_at h l.
Proof.
  intros Heq%(constant_part_lookup _ _ l). unfold name_at.
  destruct (h' !! l) as [u'|], (h !! l) as [u|]; try done.
  cbn in *. by injection Heq.
Qed.

Lemma constant_part_sizes (h h' : list UniformFormat) (ls : list nat) :
  constant_part <$> h' = constant_part <$> h →
  uf_byteSize <$> omap (λ l, h' !! l) ls = uf_byteSize <$> omap (λ l, h !! l) ls.
Proof.
  intros Heq. induction ls as [|l ls IH]; [done|]. cbn.
  pose proof (constant_part_lookup _ _ l Heq) as Hl.
  destruct (h' !! l) as [u'|], (h !! l) as [u|]; try done.
  cbn in *. rewrite IH. by injection Hl as _ _ ->.
Qed.

Lemma constant_part_total (h h' : list UniformFormat) (ls : list nat) :
  constant_part <$> h' = constant_part <$> h →
  total_size (omap (λ l, h' !! l) ls) = total_size (omap (λ l, h !! l) ls).
Proof. intros Heq. by apply total_size_sizes, constant_part_sizes. Qed.

Lemma names_map_ext (h h' : list UniformFormat) (ls : list nat)
    (m : gmap string nat) :
  constant_part <$> h' = constant_part <$> h →
  names_map h' m ls = names_map h m ls.
Proof.
  intros Heq. unfold names_map. revert m.
  induction ls as [|l ls IH]; intros m; [done|].
  cbn. by rewrite IH, (constant_part_name _ _ _ Heq).
Qed.

(** Two objects with the same constant part and the same offset are
    equal. *)
Lemma same_object (a b : option UniformFormat) :
  constant_part <$> a = constant_part <$> b →
  uf_offset <$> a = uf_offset <$> b →
  a = b.
Proof.
  destruct a as [[na ta sa oa]|], b as [[nb tb sb ob]|]; try done.
  cbn. intros [= -> -> ->] [= ->]. done.
Qed.

(** ** Reading an array of valid locations *)


Lemma omap_lookup_valid (h : list UniformFormat) (ls : list nat) (i : nat) :
  Forall (λ l, is_Some (h !! l)) ls →
  omap (λ l, h !! l) ls !! i = (l ← ls !! i; h !! l).
Proof.
  intros Hvalid. revert i.
  induction Hvalid as [|l ls [u Hu] _ IH]; intros [|i]; try done.
  - cbn. by rewrite Hu.
  - cbn. rewrite Hu. cbn. apply IH.
Qed.


(** An element of a list has a last position in it. *)
Lemma last_index (ls : list nat) (l : nat) :
  l ∈ ls →
  ∃ i, ls !! i = Some l ∧ ∀ j, (i < j)%nat → ls !! j ≠ Some l.
Proof.
  induction ls as [|l0 ls IH]; intros Hl; [by apply elem_of_nil in Hl|].
  destruct (decide (l ∈ ls)) as [Hin|Hout].
  - destruct (IH Hin) as (i & Hi & Hlast). exists (S i). split; [done|].
    intros [|j] Hij; [lia|]. apply Hlast. lia.
  - apply elem_of_cons in Hl as [->|Hin]; [|done].
    exists 0%nat. split; [done|].
    intros [|j] Hij Hj; [lia|]. apply Hout, list_elem_of_lookup. by exists j.
Qed.

(** ** The loop on any array *)

(** The loop succeeds on valid locations. It adds up the sizes of the
    entries, changes offsets only, leaves the objects outside the array as
    they are, and the offset an object keeps is the one written at its
    last position. *)
Lemma layout_loop_array (ls : list nat) (c : Z) (m : gmap string nat)
    (h : list UniformFormat) :
  Forall (λ l, is_Some (h !! l)) ls →
  ∃ h',
    layout_loop ls c m h
    = Ok (c + total_size (omap (λ l, h !! l) ls), names_map h m ls, h')
    ∧ constant_part <$> h' = constant_part <$> h
    ∧ (∀ l, l ∉ ls → h' !! l = h !! l)
    ∧ ∀ i l, ls !! i = Some l → (∀ j, (i < j)%nat → ls !! j ≠ Some l) →
        uf_offset <$> h' !! l
        = Some (Some (div4 (c + total_size
                                  (omap (λ l, h !! l) (take i ls))))).
Proof.
  intros Hvalid. revert c m h Hvalid.
  induction ls as [|l ls IH]; intros c m h Hvalid.
  { exists h. cbn. rewrite Z.add_0_r. repeat split.
    intros i l Hi. by rewrite lookup_nil in Hi. }
  apply Forall_cons in Hvalid as [[u Hu] Hvalid].
  set (h1 := <[l := set_offset (div4 c) u]> h).
  assert (constant_part <$> h1 = constant_part <$> h) as Hcp1
    by by apply constant_part_insert.
  assert (Forall (λ l, is_Some (h1 !! l)) ls) as Hvalid1.
  { eapply Forall_impl; [exact Hvalid|]. intros l'. cbn.
    by apply constant_part_valid. }
  destruct (IH (c + uf_byteSize u) (<[uf_name u := l]> m) h1 Hvalid1)
    as (h' & Hrun & Hcp & Hframe & Hoff).
  exists h'. cbn. rewrite Hu. fold h1. rewrite Hrun. cbn.
  split.
  { rewrite (constant_part_total _ _ _ Hcp1).
    rewrite (names_map_ext _ _ _ _ Hcp1).
    unfold name_at at 2. rewrite Hu. cbn.
    unfold total_size. by rewrite Z.add_assoc. }
  split; [by rewrite Hcp|].
  split.
  { intros l' [Hne Hout]%not_elem_of_cons.
    rewrite Hframe by done. unfold h1. by rewrite list_lookup_insert_ne. }
  intros [|i] l' Hi Hlast; cbn in Hi.
  - injection Hi as <-. cbn. rewrite Z.add_0_r.
    rewrite Hframe.
    + unfold h1. rewrite list_lookup_insert_eq; [done|].
      by eapply lookup_lt_Some.
    + intros [j Hj]%list_elem_of_lookup. by apply (Hlast (S j)); [lia|].
  - rewrite (Hoff i l' Hi).
    + rewrite (constant_part_total _ _ _ Hcp1). cbn. rewrite Hu. cbn.
      unfold total_size. by rewrite Z.add_assoc.
    + intros j Hij. apply (Hlast (S j)). lia.
Qed.

(** A loop that ends normally ran on valid locations only. *)
Lemma layout_loop_Ok_valid (ls : list nat) (c : Z) (m : gmap string nat)
    (h : list UniformFormat) r :
  layout_loop ls c m h = Ok r → Forall (λ l, is_Some (h !! l)) ls.
Proof.
  revert c m h. induction ls as [|l ls IH]; intros c m h Hrun; [done|].
  cbn in Hrun. destruct (h !! l) as [u|] eqn:Hu; [|done].
  constructor; [by eexists|].
  apply IH in Hrun. eapply Forall_impl; [exact Hrun|].
  intros l'. cbn. intros Hl'.
  apply (constant_part_valid (<[l := set_offset (div4 c) u]> h)); [|done].
  symmetry. by apply constant_part_insert.
Qed.

(** The constructor, with the facts of the loop. *)
Lemma UniformBufferFormat_new_array (ls : list nat)
    (h : list UniformFormat) :
  Forall (λ l, is_Some (h !! l)) ls →
  ∃ h',
    UniformBufferFormat_new ls h
    = Ok ({| ubf_uniforms := ls;
             ubf_byteSize := total_size (omap (λ l, h !! l) ls);
             ubf_map := names_map h ∅ ls |}, h')
    ∧ constant_part <$> h' = constant_part <$> h
    ∧ Forall (λ l, is_Some (h' !! l)) ls
    ∧ (∀ l, l ∉ ls → h' !! l = h !! l)
    ∧ ∀ i l, ls !! i = Some l → (∀ j, (i < j)%nat → ls !! j ≠ Some l) →
        uf_offset <$> h' !! l
        = Some (Some (div4 (total_size (omap (λ l, h' !! l) (take i ls))))).
Proof.
  intros Hvalid.
  destruct (layout_loop_array ls 0 ∅ h Hvalid)
    as (h' & Hrun & Hcp & Hframe & Hoff).
  exists h'. unfold UniformBufferFormat_new. rewrite Hrun. cbn.
  repeat split; [done | | done |].
  - eapply Forall_impl; [exact Hvalid|]. intros l. cbn.
    by apply constant_part_valid.
  - intros i l Hi Hlast. rewrite (Hoff i l Hi Hlast), Z.add_0_l.
    by rewrite (constant_part_total _ _ _ Hcp).
Qed.

End Arrays.

Section ArrayNames.

(** ** The map on any array *)

Lemma names_map_absent (h : list UniformFormat) (ls : list nat)
    (m : gmap string nat) (name : string) :
  (∀ l, l ∈ ls → name_at h l ≠ name) →
  names_map h m ls !! name = m !! name.
Proof.
  unfold names_map. revert m.
  induction ls as [|l ls IH]; intros m Hname; [done|]. cbn.
  rewrite IH.
  - apply lookup_insert_ne, Hname, list_elem_of_here.
  - intros l' Hl'. by apply Hname, list_elem_of_further.
Qed.

(** An entry of the map was in the map before, or is an entry of the
    array under its own name. *)
Lemma names_map_Some (h : list UniformFormat) (ls : list nat)
    (m : gmap string nat) (name : string) (l : nat) :
  names_map h m ls !! name = Some l →
  (l ∈ ls ∧ name_at h l = name) ∨ m !! name = Some l.
Proof.
  unfold names_map. revert m.
  induction ls as [|l0 ls IH]; intros m Hl; [by right|]. cbn in Hl.
  apply IH in Hl as [[Hin Hname] | Hl].
  - left. split; [by apply list_elem_of_further | done].
  - destruct (decide (name_at h l0 = name)) as [Heq|Hne].
    + rewrite <- Heq, lookup_insert_eq in Hl. injection Hl as <-.
      left. split; [apply list_elem_of_here | done].
    + rewrite lookup_insert_ne in Hl by done. by right.
Qed.

(** The last entry of the array with a given name is the one the map
    holds for it. *)
Lemma names_map_last (h : list UniformFormat) (ls : list nat)
    (m : gmap string nat) (i l : nat) :
  ls !! i = Some l →
  (∀ j l', (i < j)%nat → ls !! j = Some l' → name_at h l' ≠ name_at h l) →
  names_map h m ls !! name_at h l = Some l.
Proof.
  revert m i. induction ls as [|l0 ls IH]; intros m i Hi Hlast; [done|].
  destruct i as [|i]; cbn in Hi.
  - injection Hi as ->. unfold names_map. cbn.
    fold (names_map h (<[name_at h l := l]> m) ls).
    rewrite names_map_absent; [apply lookup_insert_eq|].
    intros l' [j Hj]%list_elem_of_lookup. by apply (Hlast (S j)); [lia|].
  - unfold names_map. cbn.
    fold (names_map h (<[name_at h l0 := l0]> m) ls).
    apply (IH _ i); [done|].
    intros j l' Hij Hj. by apply (Hlast (S j)); [lia|].
Qed.

Lemma names_map_size (h : list UniformFormat) (ls : list nat)
    (m : gmap string nat) :
  (size (names_map h m ls) ≤ size m + length ls)%nat.
Proof.
  unfold names_map. revert m.
  induction ls as [|l ls IH]; intros m; cbn; [lia|].
  etrans; [apply IH|]. rewrite map_size_insert.
  destruct (m !! name_at h l); unfold id; lia.
Qed.

Lemma names_valid (h : list UniformFormat) (ls : list nat) :
  Forall (λ l, is_Some (h !! l)) ls →
  uf_name <$> omap (λ l, h !! l) ls = name_at h <$> ls.
Proof.
  induction 1 as [|l ls [u Hu] _ IH]; [done|].
  cbn. unfold name_at at 1. rewrite Hu. cbn. by rewrite IH.
Qed.

Lemma name_at_Some (h : list UniformFormat) (l : nat) (u : UniformFormat) :
  h !! l = Some u → name_at h l = uf_name u.
Proof. intros Hu. unfold name_at. by rewrite Hu. Qed.

End ArrayNames.

Section ArrayProperties.


(** X2. The constructor allocates nothing and writes offsets only: the
    store keeps its length, every object keeps its name, type and byte
    size, and an object that is not in the array is left as it was,
    offset included. *)
Theorem constructor_writes_offsets_only (ls : list nat)
    (h : list UniformFormat) :
  Forall (λ l, is_Some (h !! l)) ls →
  ∃ fmt h',
    UniformBufferFormat_new ls h = Ok (fmt, h')
    ∧ length h' = length h
    ∧ (∀ l u, h !! l = Some u →
         ∃ u', h' !! l = Some u'
               ∧ uf_name u' = uf_name u
               ∧ uf_type u' = uf_type u
               ∧ uf_byteSize u' = uf_byteSize u)
    ∧ ∀ l, l ∉ ls → h' !! l = h !! l.
Proof.
  intros Hvalid.
  destruct (UniformBufferFormat_new_array ls h Hvalid)
    as (h' & Hrun & Hcp & _ & Hframe & _).
  eexists _, h'. split; [exact Hrun|]. split; [|split; [|done]].
  - apply (f_equal length) in Hcp. by rewrite !length_fmap in Hcp.
  - intros l u Hu.
    pose proof (constant_part_lookup _ _ l Hcp) as Hl. rewrite Hu in Hl.
    destruct (h' !! l) as [u'|]; [|done].
    exists u'. cbn in Hl. injection Hl as -> -> ->. done.
Qed.


(** X4. Constructing a format a second time from the same array, in the
    store the first construction left, gives the same format and changes
    nothing in the store. *)
Theorem constructor_is_idempotent (ls : list nat)
    (h h' : list UniformFormat) (fmt : UniformBufferFormat) :
  UniformBufferFormat_new ls h = Ok (fmt, h') →
  UniformBufferFormat_new ls h' = Ok (fmt, h').
Proof.
  intros Hrun.
  assert (Forall (λ l, is_Some (h !! l)) ls) as Hvalid.
  { unfold UniformBufferFormat_new in Hrun.
    destruct (layout_loop ls 0 ∅ h) as [r|e] eqn:Hloop; [|done].
    by eapply layout_loop_Ok_valid. }
  destruct (UniformBufferFormat_new_array ls h Hvalid)
    as (h1 & Hrun1 & Hcp1 & Hvalid1 & _ & Hoff1).
  rewrite Hrun1 in Hrun. injection Hrun as <- <-.
  destruct (UniformBufferFormat_new_array ls h1 Hvalid1)
    as (h2 & Hrun2 & Hcp2 & _ & Hframe2 & Hoff2).
  rewrite Hrun2. f_equal. f_equal.
  - f_equal.
    + by apply constant_part_total.
    + by apply names_map_ext.
  - apply list_eq. intros l.
    destruct (decide (l ∈ ls)) as [Hin|Hout]; [|by apply Hframe2].
    apply last_index in Hin as (i & Hi & Hlast).
    apply same_object; [by apply constant_part_lookup|].
    rewrite (Hoff2 i l Hi Hlast), (Hoff1 i l Hi Hlast).
    by rewrite (constant_part_total _ _ _ Hcp2).
Qed.

(** X5. Every entry of the map is an object of the array, stored under the
    name the object carries; the names in the map are exactly the names
    of the entries of the array, so the map has no more entries than the
    array; and for each name the map holds the entry of the array that
    comes last among those with that name. *)
Theorem map_entries_are_array_members (ls : list nat)
    (h : list UniformFormat) :
  Forall (λ l, is_Some (h !! l)) ls →
  ∃ fmt h',
    UniformBufferFormat_new ls h = Ok (fmt, h')
    ∧ (∀ name l, ubf_map fmt !! name = Some l →
         l ∈ ls ∧ ∃ u, h' !! l = Some u ∧ uf_name u = name
                       ∧ lookup_name fmt h' name = Some u)
    ∧ (∀ name, is_Some (ubf_map fmt !! name)
               ↔ name ∈ uf_name <$> fields fmt h')
    ∧ (size (ubf_map fmt) ≤ length ls)%nat
    ∧ ∀ i l u, ls !! i = Some l → h' !! l = Some u →
        (∀ j l' u', (i < j)%nat → ls !! j = Some l' → h' !! l' = Some u' →
                    uf_name u' ≠ uf_name u) →
        ubf_map fmt !! uf_name u = Some l.
Proof.
  intros Hvalid.
  destruct (UniformBufferFormat_new_array ls h Hvalid)
    as (h' & Hrun & Hcp & Hvalid' & _).
  eexists _, h'. split; [exact Hrun|]. unfold fields, lookup_name. cbn.
  rewrite <- (names_map_ext h h' ls ∅ Hcp).
  assert (∀ name l, names_map h' ∅ ls !! name = Some l →
            l ∈ ls ∧ ∃ u, h' !! l = Some u ∧ uf_name u = name) as Hentry.
  { intros name l [[Hin Hname]|Hempty]%names_map_Some; [|done].
    split; [done|].
    rewrite Forall_forall in Hvalid'. destruct (Hvalid' l Hin) as [u Hu].
    exists u. split; [done|]. by rewrite <- (name_at_Some _ _ _ Hu). }
  split; [|split; [|split]].
  - intros name l Hl. destruct (Hentry name l Hl) as (Hin & u & Hu & Hname).
    split; [done|]. exists u. rewrite Hl. by cbn.
  - intros name. rewrite names_valid by done. split.
    + intros [l Hl]. destruct (Hentry name l Hl) as (Hin & u & Hu & <-).
      apply list_elem_of_fmap. exists l. split; [|done].
      by rewrite (name_at_Some _ _ _ Hu).
    + intros (l & -> & Hin)%list_elem_of_fmap.
      destruct (last_occurrence (name_at h') ls (name_at h' l))
        as (i & l2 & Hi & Hname2 & Hlast).
      { apply list_elem_of_fmap. by exists l. }
      exists l2. rewrite <- Hname2.
      apply (names_map_last h' ls ∅ i l2 Hi).
      intros j l3 Hij Hj. rewrite Hname2. by apply (Hlast j).
  - pose proof (names_map_size h' ls ∅) as Hsize.
    by rewrite map_size_empty in Hsize.
  - intros i l u Hi Hu Hlast.
    rewrite <- (name_at_Some _ _ _ Hu).
    apply (names_map_last h' ls ∅ i l Hi).
    intros j l' Hij Hj. rewrite Forall_forall in Hvalid'.
    destruct (Hvalid' l') as [u' Hu'];
      [apply list_elem_of_lookup; by exists j|].
    rewrite (name_at_Some _ _ _ Hu'), (name_at_Some _ _ _ Hu).
    by apply (Hlast j l' u').
Qed.

End ArrayProperties.

(** ** Instances: an array that repeats an object *)


Lemma constructor_writes_offsets_only_witness :
  ∃ fmt h',
    UniformBufferFormat_new [1; 1]%nat
      [ {| uf_name := "a"; uf_type := 2; uf_byteSize := 4;
           uf_offset := Some (Qc_of_Z 5) |};
        {| uf_name := "b"; uf_type := 4; uf_byteSize := 12;
           uf_offset := None |} ] = Ok (fmt, h')
    ∧ length h' = 2%nat
    ∧ (∀ l u,
         [ {| uf_name := "a"; uf_type := 2; uf_byteSize := 4;
              uf_offset := Some (Qc_of_Z 5) |};
           {| uf_name := "b"; uf_type := 4; uf_byteSize := 12;
              uf_offset := None |} ] !! l = Some u →
         ∃ u', h' !! l = Some u'
               ∧ uf_name u' = uf_name u
               ∧ uf_type u' = uf_type u
               ∧ uf_byteSize u' = uf_byteSize u)
    ∧ ∀ l, l ∉ [1; 1]%nat →
        h' !! l
        = [ {| uf_name := "a"; uf_type := 2; uf_byteSize := 4;
               uf_offset := Some (Qc_of_Z 5) |};
            {| uf_name := "b"; uf_type := 4; uf_byteSize := 12;
               uf_offset := None |} ] !! l.
Proof.
  apply (constructor_writes_offsets_only [1; 1]%nat).
  repeat constructor; by eexists.
Defined.


Lemma constructor_is_idempotent_witness :
  ∃ fmt h',
    UniformBufferFormat_new [1; 0; 1]%nat
      [ {| uf_name := "a"; uf_type := 2; uf_byteSize := 4;
           uf_offset := None |};
        {| uf_name := "b"; uf_type := 4; uf_byteSize := 12;
           uf_offset := None |} ] = Ok (fmt, h')
    ∧ UniformBufferFormat_new [1; 0; 1]%nat h' = Ok (fmt, h').
Proof.
  eexists _, _. split; [reflexivity|].
  apply (constructor_is_idempotent [1; 0; 1]%nat
           [ {| uf_name := "a"; uf_type := 2; uf_byteSize := 4;
                uf_offset := None |};
             {| uf_name := "b"; uf_type := 4; uf_byteSize := 12;
                uf_offset := None |} ]).
  reflexivity.
Defined.

Lemma map_entries_are_array_members_witness :
  ∃ fmt h',
    UniformBufferFormat_new [1; 0; 1]%nat
      [ {| uf_name := "a"; uf_type := 2; uf_byteSize := 4;
           uf_offset := None |};
        {| uf_name := "a"; uf_type := 4; uf_byteSize := 12;
           uf_offset := None |} ] = Ok (fmt, h')
    ∧ (∀ name l, ubf_map fmt !! name = Some l →
         l ∈ [1; 0; 1]%nat
         ∧ ∃ u, h' !! l = Some u ∧ uf_name u = name
                ∧ lookup_name fmt h' name = Some u)
    ∧ (∀ name, is_Some (ubf_map fmt !! name)
               ↔ name ∈ uf_name <$> fields fmt h')
    ∧ (size (ubf_map fmt) ≤ 3)%nat
    ∧ ∀ i l u, [1; 0; 1]%nat !! i = Some l → h' !! l = Some u →
        (∀ j l' u', (i < j)%nat → [1; 0; 1]%nat !! j = Some l' →
                    h' !! l' = Some u' → uf_name u' ≠ uf_name u) →
        ubf_map fmt !! uf_name u = Some l.
Proof.
  apply (map_entries_are_array_members [1; 0; 1]%nat).
  repeat constructor; by eexists.
Defined.

(** * More on compiled formats *)

Section LayoutAlgebra.
Context `{K : Constants}.

(** ** Sums and positions *)

Lemma div4_add (a b : Z) : div4 (a + b) = (div4 a + div4 b)%Qc.
Proof.
  unfold div4, Qcdiv. by rewrite Z2Qc_inj_add, Qcmult_plus_distr_l.
Qed.

Lemma total_size_append (us vs : list UniformFormat) :
  total_size (us ++ vs) = total_size us + total_size vs.
Proof.
  induction us as [|u us IH]; cbn; [done|].
  unfold total_size in IH. rewrite IH. unfold total_size. lia.
Qed.

Lemma total_size_Permutation (us vs : list UniformFormat) :
  us ≡ₚ vs → total_size us = total_size vs.
Proof.
  induction 1 as [|u us vs _ IH|u v us|us vs ws _ IH1 _ IH2]; cbn.
  - done.
  - unfold total_size in IH. by rewrite IH.
  - lia.
  - by rewrite IH1.
Qed.

(** With sizes that are not negative, a field ends before any later
    position starts. *)
Lemma total_size_take_le (us : list UniformFormat) (i j : nat)
    (u : UniformFormat) :
  Forall (λ u, 0 ≤ uf_byteSize u) us →
  us !! i = Some u → (i < j)%nat →
  total_size (take i us) + uf_byteSize u ≤ total_size (take j us).
Proof.
  intros Hpos. revert i j.
  induction Hpos as [|v us Hv Hpos IH]; intros i j Hi Hij; [done|].
  destruct j as [|j]; [lia|]. destruct i as [|i]; cbn in *.
  - injection Hi as ->.
    assert (0 ≤ total_size (take j us)); [|unfold total_size in *; lia].
    clear -Hpos. revert j.
    induction Hpos as [|w us Hw _ IH]; intros [|j]; cbn; try done.
    specialize (IH j). unfold total_size in IH. lia.
  - specialize (IH i j Hi). unfold total_size in *. lia.
Qed.

Lemma place_app (c : Z) (us vs : list UniformFormat) :
  place c (us ++ vs) = place c us ++ place (c + total_size us) vs.
Proof.
  revert c. induction us as [|u us IH]; intros c; cbn.
  - by rewrite Z.add_0_r.
  - rewrite IH. unfold total_size. by rewrite Z.add_assoc.
Qed.

(** ** The locations in the map *)

Lemma name_map_range (us : list UniformFormat) (a : nat)
    (m : gmap string nat) (name : string) (l : nat) :
  name_map a us m !! name = Some l →
  (a ≤ l < a + length us)%nat ∨ m !! name = Some l.
Proof.
  revert a m. induction us as [|u us IH]; intros a m Hl; [by right|].
  cbn in Hl. apply IH in Hl as [Hrange | Hl]; [left; cbn; lia|].
  destruct (decide (uf_name u = name)) as [<-|Hne].
  - rewrite lookup_insert_eq in Hl. injection Hl as <-. left. cbn. lia.
  - rewrite lookup_insert_ne in Hl by done. by right.
Qed.

Lemma name_map_size_NoDup (us : list UniformFormat) (a : nat)
    (m : gmap string nat) :
  NoDup (uf_name <$> us) →
  (∀ u, u ∈ us → m !! uf_name u = None) →
  size (name_map a us m) = (size m + length us)%nat.
Proof.
  revert a m. induction us as [|u us IH]; intros a m Hnodup Hfresh; cbn.
  - lia.
  - cbn in Hnodup. apply NoDup_cons in Hnodup as [Hout Hnodup].
    rewrite IH; [|done|].
    + rewrite map_size_insert, Hfresh by apply list_elem_of_here. lia.
    + intros v Hv. rewrite lookup_insert_ne.
      * by apply Hfresh, list_elem_of_further.
      * intros Heq. apply Hout. rewrite Heq.
        apply list_elem_of_fmap. by exists v.
Qed.

(** ** The assignments to the table *)

(** A key reads as the value of its last assignment. *)
Lemma assign_all_last (kvs : list (Z * Z)) (arr : gmap Z Z) (i : nat)
    (k v : Z) :
  kvs !! i = Some (k, v) →
  (∀ j kv, (i < j)%nat → kvs !! j = Some kv → kv.1 ≠ k) →
  foldl assign arr kvs !! k = Some v.
Proof.
  revert arr i. induction kvs as [|kv0 kvs IH]; intros arr i Hi Hlast;
    [done|].
  destruct i as [|i]; cbn in *.
  - injection Hi as ->. rewrite assign_all_other.
    + unfold assign. cbn. apply lookup_insert_eq.
    + intros (kv & Hkv & [j Hj]%list_elem_of_lookup)%list_elem_of_fmap.
      apply (Hlast (S j) kv); [lia | done | done].
  - apply (IH _ i); [done|].
    intros j kv Hij Hj. apply (Hlast (S j) kv); [lia | done].
Qed.

End LayoutAlgebra.

Section CompiledProperties.
Context `{K : Constants}.

(** X6. When the declared names are pairwise distinct, the map has one
    entry for each field and the lookup of the name of the i-th
    declaration answers the i-th field of the array. *)
Theorem distinct_names_find_every_field (decls : list (string * Z))
    (h : list UniformFormat) :
  Forall (λ d, registered d.2) decls →
  NoDup decls.*1 →
  ∃ fmt h',
    compile decls h = Ok (fmt, h')
    ∧ size (ubf_map fmt) = length decls
    ∧ ∀ i name type, decls !! i = Some (name, type) →
        is_Some (field fmt h' i)
        ∧ lookup_name fmt h' name = field fmt h' i.
Proof.
  intros Hreg Hnodup.
  destruct (compile_layout decls h Hreg)
    as (fmt & h' & Hrun & _ & _ & _ & Hmap & _ & Hfield).
  exists fmt, h'. split; [done|]. split.
  - rewrite Hmap, name_map_size_NoDup, map_size_empty, length_fmap;
      [done | by rewrite names_fresh | done].
  - intros i name type Hi. split.
    + rewrite Hfield, (layout_lookup _ _ _ Hi). by eexists.
    + eapply compile_lookup_last; [done..|].
      intros k [name' type'] Hik Hk Heq. cbn in Heq. subst name'.
      assert (decls.*1 !! i = Some name) as Hi'
        by by rewrite list_lookup_fmap, Hi.
      assert (decls.*1 !! k = Some name) as Hk'
        by by rewrite list_lookup_fmap, Hk.
      pose proof (NoDup_lookup _ _ _ _ Hnodup Hi' Hk'). lia.
Qed.

(** X7. The fields of a compiled format do not overlap and lie inside the
    buffer: the offsets are integers that are not negative, a field ends
    (at 4 times its offset plus its size) no later than any later field
    starts, and no later than [byteSize]. *)
Theorem fields_do_not_overlap (decls : list (string * Z))
    (h : list UniformFormat) :
  Forall (λ d, registered d.2) decls →
  ∃ fmt h',
    compile decls h = Ok (fmt, h')
    ∧ (∀ i u, field fmt h' i = Some u →
         ∃ k, uf_offset u = Some (Qc_of_Z k)
              ∧ 0 ≤ k ∧ 0 < uf_byteSize u
              ∧ 4 * k + uf_byteSize u ≤ ubf_byteSize fmt)
    ∧ ∀ i j ui uj, (i < j)%nat →
        field fmt h' i = Some ui → field fmt h' j = Some uj →
        ∃ ki kj,
          uf_offset ui = Some (Qc_of_Z ki)
          ∧ uf_offset uj = Some (Qc_of_Z kj)
          ∧ 4 * ki + uf_byteSize ui ≤ 4 * kj.
Proof.
  intros Hreg.
  destruct (compile_layout decls h Hreg)
    as (fmt & h' & Hrun & _ & _ & Hsize & _ & _ & Hfield).
  exists fmt, h'. split; [done|].
  pose proof (layout_size_props decls Hreg) as Hprops.
  assert (Forall (λ u, 0 ≤ uf_byteSize u) (layout decls)) as Hpos.
  { eapply Forall_impl; [exact Hprops|]. intros u Hu. cbn in Hu. lia. }
  assert (∀ i, total_size (take i (layout decls)) mod 4 = 0) as Hmod.
  { intros i. apply total_size_mod_4, Forall_take.
    eapply Forall_impl; [exact Hprops|]. intros u Hu. cbn in Hu. tauto. }
  assert (∀ i, 0 ≤ total_size (take i (layout decls))) as Hnonneg.
  { intros i. apply total_size_bounds, Forall_take.
    eapply Forall_impl; [exact Hprops|]. intros u Hu. cbn in Hu. tauto. }
  assert (∀ i u, layout decls !! i = Some u →
            uf_offset u
            = Some (Qc_of_Z (total_size (take i (layout decls)) / 4))
            ∧ 4 * (total_size (take i (layout decls)) / 4)
              = total_size (take i (layout decls))) as Hoff.
  { intros i u (d & _ & ->)%layout_lookup_inv. cbn.
    rewrite div4_whole by done. split; [done|].
    rewrite <- Z_div_exact_full_2; [done | lia | done]. }
  split.
  - intros i u Hu. rewrite Hfield in Hu.
    destruct (Hoff i u Hu) as [Hoffset Hexact].
    eexists. split; [exact Hoffset|].
    rewrite Forall_lookup in Hprops. specialize (Hprops i u Hu).
    specialize (Hnonneg i).
    split; [apply Z.div_pos; lia|]. split; [tauto|].
    rewrite Hexact, Hsize.
    rewrite <- (take_ge (layout decls) (S (length (layout decls)))) at 2
      by lia.
    apply total_size_take_le; [done | done |].
    apply lookup_lt_Some in Hu. lia.
  - intros i j ui uj Hij Hui Huj. rewrite Hfield in Hui, Huj.
    destruct (Hoff i ui Hui) as [Hoffi Hexi].
    destruct (Hoff j uj Huj) as [Hoffj Hexj].
    eexists _, _. split; [exact Hoffi|]. split; [exact Hoffj|].
    rewrite Hexi, Hexj. by apply total_size_take_le.
Qed.

(** X8. Declarations appended to a list do not move the fields of the
    list: the format of [decls ++ more] starts with the fields of the
    format of [decls], its [byteSize] is the sum of the two, and the
    fields of [more] follow with their offsets shifted by a quarter of
    the [byteSize] of [decls]. *)
Theorem appended_declarations_follow (decls more : list (string * Z))
    (h : list UniformFormat) :
  Forall (λ d, registered d.2) decls →
  Forall (λ d, registered d.2) more →
  ∃ fmt1 h1 fmt2 h2 fmt h',
    compile decls h = Ok (fmt1, h1)
    ∧ compile more h = Ok (fmt2, h2)
    ∧ compile (decls ++ more) h = Ok (fmt, h')
    ∧ ubf_byteSize fmt = ubf_byteSize fmt1 + ubf_byteSize fmt2
    ∧ take (length decls) (fields fmt h') = fields fmt1 h1
    ∧ ∀ j u2, field fmt2 h2 j = Some u2 →
        ∃ u q2,
          field fmt h' (length decls + j) = Some u
          ∧ constant_part u = constant_part u2
          ∧ uf_offset u2 = Some q2
          ∧ uf_offset u = Some (q2 + div4 (ubf_byteSize fmt1))%Qc.
Proof.
  intros Hreg1 Hreg2.
  destruct (compile_layout decls h Hreg1)
    as (fmt1 & h1 & Hrun1 & _ & _ & Hsize1 & _ & Hfields1 & _).
  destruct (compile_layout more h Hreg2)
    as (fmt2 & h2 & Hrun2 & _ & _ & Hsize2 & _ & _ & Hfield2).
  destruct (compile_layout (decls ++ more) h)
    as (fmt & h' & Hrun & _ & _ & Hsize & _ & Hfields & Hfield);
    [by apply Forall_app|].
  exists fmt1, h1, fmt2, h2, fmt, h'. do 3 (split; [done|]).
  assert (layout (decls ++ more)
          = layout decls
            ++ place (total_size (layout decls)) (fresh_descriptor <$> more))
    as Happ.
  { unfold layout. rewrite fmap_app, place_app, Z.add_0_l. do 2 f_equal.
    apply total_size_sizes. by rewrite place_sizes. }
  rewrite Hsize, Hsize1, Hsize2, Hfields, Hfields1, Happ.
  split; [|split].
  - rewrite total_size_append. f_equal. unfold layout.
    apply total_size_sizes. by rewrite !place_sizes.
  - rewrite take_app_length'; [done|]. by rewrite length_layout.
  - intros j u2 Hu2. rewrite Hfield2 in Hu2.
    apply layout_lookup_inv in Hu2 as (d & Hd & ->).
    rewrite Hfield, Happ, lookup_app_r; rewrite length_layout; [|lia].
    replace (length decls + j - length decls)%nat with j by lia.
    erewrite place_lookup; [|by rewrite list_lookup_fmap, Hd].
    eexists _, _. split; [done|]. cbn. repeat split.
    unfold layout at 2. rewrite total_size_take_place.
    by rewrite div4_add, Qcplus_comm.
Qed.

(** X9. The [byteSize] of a format does not depend on the order of the
    declarations. *)
Theorem byteSize_ignores_order (decls decls' : list (string * Z))
    (h h0 : list UniformFormat) :
  Forall (λ d, registered d.2) decls →
  decls ≡ₚ decls' →
  ∃ fmt h' fmt' h0',
    compile decls h = Ok (fmt, h')
    ∧ compile decls' h0 = Ok (fmt', h0')
    ∧ ubf_byteSize fmt = ubf_byteSize fmt'.
Proof.
  intros Hreg Hperm.
  assert (Forall (λ d, registered d.2) decls') as Hreg'
    by by rewrite <- Hperm.
  destruct (compile_layout decls h Hreg)
    as (fmt & h' & Hrun & _ & _ & Hsize & _).
  destruct (compile_layout decls' h0 Hreg')
    as (fmt' & h0' & Hrun' & _ & _ & Hsize' & _).
  exists fmt, h', fmt', h0'. do 2 (split; [done|]).
  rewrite Hsize, Hsize'. unfold layout.
  rewrite (total_size_sizes (place 0 _) (fresh_descriptor <$> decls))
    by apply place_sizes.
  rewrite (total_size_sizes (place 0 _) (fresh_descriptor <$> decls'))
    by apply place_sizes.
  apply total_size_Permutation. by rewrite Hperm.
Qed.

(** X10. A construction works on objects of its own: it leaves the store
    it finds as it is and adds one object per declaration, so a format
    compiled earlier reads the same afterwards, field by field and name
    by name, and shares no object with the new one. *)
Theorem later_compile_keeps_earlier_format (decls1 decls2 : list (string * Z))
    (h : list UniformFormat) :
  Forall (λ d, registered d.2) decls1 →
  Forall (λ d, registered d.2) decls2 →
  ∃ fmt1 h1 fmt2 h2,
    compile decls1 h = Ok (fmt1, h1)
    ∧ compile decls2 h1 = Ok (fmt2, h2)
    ∧ take (length h1) h2 = h1
    ∧ length h2 = (length h1 + length decls2)%nat
    ∧ fields fmt1 h2 = fields fmt1 h1
    ∧ (∀ name, lookup_name fmt1 h2 name = lookup_name fmt1 h1 name)
    ∧ ∀ l, l ∈ ubf_uniforms fmt1 → l ∉ ubf_uniforms fmt2.
Proof.
  intros Hreg1 Hreg2.
  destruct (compile_layout decls1 h Hreg1)
    as (fmt1 & h1 & Hrun1 & Hh1 & Hunif1 & _ & Hmap1 & _).
  destruct (compile_layout decls2 h1 Hreg2)
    as (fmt2 & h2 & Hrun2 & Hh2 & Hunif2 & _).
  exists fmt1, h1, fmt2, h2. do 2 (split; [done|]).
  assert (length h1 = (length h + length decls1)%nat) as Hlen1
    by by rewrite Hh1, length_app, length_layout.
  assert (∀ l, (l < length h1)%nat → h2 !! l = h1 !! l) as Hold.
  { intros l Hl. rewrite Hh2. by apply lookup_app_l. }
  split; [by rewrite Hh2, take_app_length|].
  split; [by rewrite Hh2, length_app, length_layout|].
  split; [|split].
  - unfold fields. rewrite Hunif1.
    apply list_omap_ext, Forall_Forall2_diag, Forall_forall.
    intros l [_ Hl]%elem_of_seq. apply Hold. lia.
  - intros name. unfold lookup_name.
    destruct (ubf_map fmt1 !! name) as [l|] eqn:Hl; [|done]. cbn.
    apply Hold. rewrite Hmap1 in Hl.
    apply name_map_range in Hl as [Hrange | Hempty]; [|done].
    rewrite length_fmap in Hrange. lia.
  - intros l. rewrite Hunif1, Hunif2, !elem_of_seq. lia.
Qed.

(** X11. A tag reads in the table as the size of the last assignment made
    to it in the source, also when some of the constants coincide and a
    later assignment overwrites an earlier one. *)
Theorem table_reads_last_assignment (i : nat) (tag size : Z) :
  assignments !! i = Some (tag, size) →
  (∀ j kv, (i < j)%nat → assignments !! j = Some kv → kv.1 ≠ tag) →
  uniformTypeToByteSize !! tag = Some size.
Proof.
  intros Hi Hlast. by apply (assign_all_last _ _ i).
Qed.

(** X12. For a tag of the table, [new UniformFormat] adds exactly one
    object to the store, at a location that was free, and changes no
    other; the object has the given name and type, the size of the
    table, which is not 0, and no offset yet. *)
Theorem construction_adds_one_object (name : string) (type : Z)
    (h : list UniformFormat) :
  registered type →
  ∃ l h' u,
    UniformFormat_new name type h = Ok (l, h')
    ∧ h !! l = None
    ∧ h' !! l = Some u
    ∧ length h' = S (length h)
    ∧ (∀ l0, l0 ≠ l → h' !! l0 = h !! l0)
    ∧ uf_name u = name ∧ uf_type u = type
    ∧ uniformTypeToByteSize !! type = Some (uf_byteSize u)
    ∧ uf_byteSize u ≠ 0
    ∧ uf_offset u = None.
Proof.
  intros Hreg.
  exists (length h), (h ++ [fresh_descriptor (name, type)]),
    (fresh_descriptor (name, type)).
  split; [by apply UniformFormat_new_registered|].
  split; [by apply lookup_ge_None|].
  split; [by rewrite lookup_app_r, Nat.sub_diag|].
  split; [rewrite length_app; cbn; lia|].
  split.
  { intros l0 Hl0. destruct (decide (l0 < length h)%nat) as [Hlt|Hge].
    - by rewrite lookup_app_l.
    - rewrite !lookup_ge_None_2; [done | lia |].
      rewrite length_app. cbn. lia. }
  pose proof (fresh_descriptor_size (name, type) Hreg) as Hsize.
  do 3 (split; [done|]). split; [|done].
  apply table_size_bounds in Hsize. lia.
Qed.

End CompiledProperties.

(** ** Instances: compiled formats *)

Lemma distinct_names_find_every_field_witness :
  ∃ fmt h',
    compile (K := sample_constants) [("a"%string, 4); ("b"%string, 2)] []
    = Ok (fmt, h')
    ∧ size (ubf_map fmt) = 2%nat
    ∧ ∀ i name type,
        [("a"%string, 4); ("b"%string, 2)] !! i = Some (name, type) →
        is_Some (field fmt h' i)
        ∧ lookup_name fmt h' name = field fmt h' i.
Proof.
  apply (distinct_names_find_every_field (K := sample_constants));
    by_evaluation.
Defined.

Lemma fields_do_not_overlap_witness :
  ∃ fmt h',
    compile (K := sample_constants)
      [("a"%string, 4); ("b"%string, 2); ("c"%string, 14)] []
    = Ok (fmt, h')
    ∧ (∀ i u, field fmt h' i = Some u →
         ∃ k, uf_offset u = Some (Qc_of_Z k)
              ∧ 0 ≤ k ∧ 0 < uf_byteSize u
              ∧ 4 * k + uf_byteSize u ≤ ubf_byteSize fmt)
    ∧ ∀ i j ui uj, (i < j)%nat →
        field fmt h' i = Some ui → field fmt h' j = Some uj →
        ∃ ki kj,
          uf_offset ui = Some (Qc_of_Z ki)
          ∧ uf_offset uj = Some (Qc_of_Z kj)
          ∧ 4 * ki + uf_byteSize ui ≤ 4 * kj.
Proof.
  apply (fields_do_not_overlap (K := sample_constants)).
  by_evaluation.
Defined.

Lemma appended_declarations_follow_witness :
  ∃ fmt1 h1 fmt2 h2 fmt h',
    compile (K := sample_constants) [("a"%string, 4)] [] = Ok (fmt1, h1)
    ∧ compile (K := sample_constants) [("b"%string, 2); ("c"%string, 5)] []
      = Ok (fmt2, h2)
    ∧ compile (K := sample_constants)
        ([("a"%string, 4)] ++ [("b"%string, 2); ("c"%string, 5)]) []
      = Ok (fmt, h')
    ∧ ubf_byteSize fmt = ubf_byteSize fmt1 + ubf_byteSize fmt2
    ∧ take 1 (fields fmt h') = fields fmt1 h1
    ∧ ∀ j u2, field fmt2 h2 j = Some u2 →
        ∃ u q2,
          field fmt h' (1 + j) = Some u
          ∧ constant_part u = constant_part u2
          ∧ uf_offset u2 = Some q2
          ∧ uf_offset u = Some (q2 + div4 (ubf_byteSize fmt1))%Qc.
Proof.
  apply (appended_declarations_follow (K := sample_constants)
           [("a"%string, 4)] [("b"%string, 2); ("c"%string, 5)] []);
    by_evaluation.
Defined.

Lemma byteSize_ignores_order_witness :
  ∃ fmt h' fmt' h0',
    compile (K := sample_constants) [("a"%string, 4); ("b"%string, 14)] []
    = Ok (fmt, h')
    ∧ compile (K := sample_constants) [("b"%string, 14); ("a"%string, 4)] []
      = Ok (fmt', h0')
    ∧ ubf_byteSize fmt = ubf_byteSize fmt'.
Proof.
  apply (byteSize_ignores_order (K := sample_constants)).
  - by_evaluation.
  - apply perm_swap.
Defined.

Lemma later_compile_keeps_earlier_format_witness :
  ∃ fmt1 h1 fmt2 h2,
    compile (K := sample_constants) [("a"%string, 4); ("b"%string, 2)] []
    = Ok (fmt1, h1)
    ∧ compile (K := sample_constants) [("a"%string, 14)] h1 = Ok (fmt2, h2)
    ∧ take (length h1) h2 = h1
    ∧ length h2 = (length h1 + 1)%nat
    ∧ fields fmt1 h2 = fields fmt1 h1
    ∧ (∀ name, lookup_name fmt1 h2 name = lookup_name fmt1 h1 name)
    ∧ ∀ l, l ∈ ubf_uniforms fmt1 → l ∉ ubf_uniforms fmt2.
Proof.
  apply (later_compile_keeps_earlier_format (K := sample_constants)
           [("a"%string, 4); ("b"%string, 2)] [("a"%string, 14)] []);
    by_evaluation.
Defined.

(** Here all the constants are 0: the thirteen assignments go to the same
    slot, which ends with the size assigned last. *)
Lemma table_reads_last_assignment_witness :
  uniformTypeToByteSize (K := Build_Constants 0 0 0 0 0 0 0 0 0 0 0 0 0) !! 0
  = Some 64.
Proof.
  apply (table_reads_last_assignment
           (K := Build_Constants 0 0 0 0 0 0 0 0 0 0 0 0 0) 12 0 64).
  - reflexivity.
  - intros j kv Hj Hkv. apply lookup_lt_Some in Hkv. cbn in Hkv. lia.
Defined.

Lemma construction_adds_one_object_witness :
  ∃ l h' u,
    UniformFormat_new (K := sample_constants) "m"%string 14 [] = Ok (l, h')
    ∧ ([] : list UniformFormat) !! l = None
    ∧ h' !! l = Some u
    ∧ length h' = 1%nat
    ∧ (∀ l0, l0 ≠ l → h' !! l0 = ([] : list UniformFormat) !! l0)
    ∧ uf_name u = "m"%string ∧ uf_type u = 14
    ∧ uniformTypeToByteSize (K := sample_constants) !! 14
      = Some (uf_byteSize u)
    ∧ uf_byteSize u ≠ 0
    ∧ uf_offset u = None.
Proof.
  apply (construction_adds_one_object (K := sample_constants)).
  by_evaluation.
Defined.
